(** * airhornbot: the per-guild playback queue of [cmd/bot/bot.go]

    A shallow embedding of the clip catalog ([Sound], [SoundCollection]),
    the DCA frame reader ([Sound.Load]), weighted selection
    ([SoundCollection.Random]), the request builder ([createPlay]), the
    guild queue manager ([enqueuePlay]) and the playback driver
    ([playSound]), and of the handlers that feed them
    ([onMessageCreate], [handleBotControlMessages], [airhornBomb],
    [trackSoundStats], [onGuildCreate]), followed by the properties of
    the specification that were checked against them and by further
    properties of the code. *)

From Stdlib Require Import ZArith Lia Bool.
From Stdlib Require Import Init.Byte.
From Stdlib Require Import Ascii DecimalString.
From stdpp Require Import base option list strings gmap.

Local Open Scope Z_scope.
Local Set Warnings "-register-all".

(** ** Go runtime values *)

(** What a Go call can do besides returning: panic, or not return at
    all.  [Diverged] stands for a send that blocks on a full channel and
    for a recursion budget of the embedding that ran out; the budgets
    used below never do ([Sound_Load_terminates], [playSound_returns]). *)
Inductive outcome (A : Type) : Type :=
| Ret (a : A)
| Panic (msg : string)
| Diverged.
Arguments Ret {A} a.
Arguments Panic {A} msg.
Arguments Diverged {A}.

Definition obind {A B} (m : outcome A) (k : A -> outcome B) : outcome B :=
  match m with
  | Ret a => k a
  | Panic msg => Panic msg
  | Diverged => Diverged
  end.

Module GoInt.

(** Go's [int] on a 64-bit target: two's complement, wrapping. *)
Definition min_int : Z := - 2 ^ 63.
Definition max_int : Z := 2 ^ 63 - 1.

Definition wrap (z : Z) : Z := (z + 2 ^ 63) mod 2 ^ 64 - 2 ^ 63.

Definition add (a b : Z) : Z := wrap (a + b).
Definition sub (a b : Z) : Z := wrap (a - b).

Definition in_range (z : Z) : Prop := min_int <= z <= max_int.

End GoInt.

(** ** Clip catalog *)

(** [Sound]: a clip.  [buffer] holds the encoded frames. *)
Record Sound : Type := mkSound {
  Name : string;
  Weight : Z;
  PartDelay : Z;
  buffer : list (list byte)
}.

(** [SoundCollection].  [ChainWith] is a pointer in the source; here it
    is the collection it points to. *)
Inductive SoundCollection : Type := mkSoundCollection {
  Prefix : string;
  Commands : list string;
  Sounds : list Sound;
  ChainWith : option SoundCollection;
  soundRange : Z
}.

Definition createSound (name : string) (weight partDelay : Z) : Sound :=
  {| Name := name; Weight := weight; PartDelay := partDelay; buffer := [] |}.

(** *** Weighted selection *)

(** [rand.Intn n] of the Go library, by its contract: it panics when
    [n <= 0] and otherwise returns a number of [[0, n)].  [src] is what
    the pseudo-random source delivers. *)
Definition Intn (src n : Z) : outcome Z :=
  if n <=? 0 then Panic "invalid argument to Intn" else Ret (src mod n).

(** [randomRange(min, max)]: [rand.Intn(max-min) + min]. *)
Definition randomRange (src min max : Z) : outcome Z :=
  obind (Intn src (GoInt.sub max min)) (fun r => Ret (GoInt.add r min)).

(** The loop of [Random]: [i] is the running sum of the weights. *)
Fixpoint walk (number i : Z) (sounds : list Sound) : option Sound :=
  match sounds with
  | [] => None
  | sound :: rest =>
      let i' := GoInt.add i (Weight sound) in
      if number <? i' then Some sound else walk number i' rest
  end.

(** [Random] once the draw is known. *)
Definition Random_at (number : Z) (s : SoundCollection) : option Sound :=
  walk number 0 (Sounds s).

(** [SoundCollection.Random]; [None] is the source's [nil]. *)
Definition Random (src : Z) (s : SoundCollection) : outcome (option Sound) :=
  obind (randomRange src 0 (soundRange s)) (fun number => Ret (Random_at number s)).

(** The running sum of the weights after the clips of [sounds], started
    at [i], as the loops of [Random] and [Load] compute it. *)
Definition cumFrom (i : Z) (sounds : list Sound) : Z :=
  fold_left (fun i sound => GoInt.add i (Weight sound)) sounds i.

(** The cumulative weight of [sounds]. *)
Definition cumWeight (sounds : list Sound) : Z := cumFrom 0 sounds.

Arguments cumWeight : simpl never.
Arguments cumFrom : simpl never.

(** The sum of the weights as a mathematical integer. *)
Definition totalWeight (sounds : list Sound) : Z :=
  foldr (fun sound acc => Weight sound + acc) 0 sounds.

Arguments totalWeight : simpl never.

(** [sound] is the first clip of [sounds] whose cumulative weight
    strictly exceeds [number]. *)
Definition first_exceeding (number : Z) (sounds : list Sound) (sound : Sound) : Prop :=
  exists pre post,
    sounds = pre ++ sound :: post /\
    number < cumWeight (pre ++ [sound]) /\
    forall j, (j < length pre)%nat -> cumWeight (take (S j) pre) <= number.

(** ** Reading a DCA resource *)

(** The errors the modelled calls return. *)
Inductive error : Type :=
| EOF                (* io.EOF *)
| ErrUnexpectedEOF   (* io.ErrUnexpectedEOF *)
| ErrNotExist        (* os.Open: no such file *)
| ErrIO              (* any other failure of a read *)
| ErrVoiceJoin.      (* discord.ChannelVoiceJoin failed *)

Global Instance error_eq_dec : EqDecision error.
Proof. solve_decision. Defined.

(** An open file: the bytes not read yet, and whether the device fails
    (instead of reporting the end) once they are used up. *)
Record File : Type := mkFile {
  contents : list byte;
  faulty : bool
}.

(** [io.ReadFull(r, buf)] with [len(buf) = n]: no read at all for
    [n = 0]; [io.EOF] when nothing could be read, [io.ErrUnexpectedEOF]
    after a partial read, the device's own error when it fails. *)
Definition ReadFull (n : nat) (file : File) : (list byte + error) * File :=
  if decide (n = 0%nat) then (inl [], file)
  else if decide (n <= length (contents file))%nat then
    (inl (take n (contents file)),
     {| contents := drop n (contents file); faulty := faulty file |})
  else
    (inr (if faulty file then ErrIO
          else match contents file with [] => EOF | _ => ErrUnexpectedEOF end),
     {| contents := []; faulty := faulty file |}).

Definition byte_to_Z (b : byte) : Z := Z.of_N (Byte.to_N b).

(** [binary.LittleEndian.Uint16]. *)
Definition LittleEndian_Uint16 (bs : list byte) : Z :=
  match bs with
  | [b0; b1] => Z.lor (byte_to_Z b0) (Z.shiftl (byte_to_Z b1) 8)
  | _ => 0
  end.

(** The conversion [int16(u)] of a [uint16]. *)
Definition int16 (u : Z) : Z := if u <? 2 ^ 15 then u else u - 2 ^ 16.

(** [binary.Read(file, binary.LittleEndian, &opuslen)] with
    [opuslen int16]. *)
Definition binary_Read_int16 (file : File) : (Z + error) * File :=
  match ReadFull 2 file with
  | (inl bs, file') => (inl (int16 (LittleEndian_Uint16 bs)), file')
  | (inr err, file') => (inr err, file')
  end.

(** [binary.Read(file, binary.LittleEndian, &InBuf)] with
    [InBuf = make([]byte, n)]. *)
Definition binary_Read_bytes (n : nat) (file : File) : (list byte + error) * File :=
  ReadFull n file.

(** The [for] loop of [Sound.Load]: the new [s.buffer] and the error
    returned. *)
Fixpoint Load_frames (fuel : nat) (file : File) (buf : list (list byte))
  : outcome (list (list byte) * option error) :=
  match fuel with
  | O => Diverged
  | S fuel' =>
      match binary_Read_int16 file with
      | (inr err, _) =>
          if decide (err = EOF \/ err = ErrUnexpectedEOF) then Ret (buf, None)
          else Ret (buf, Some err)
      | (inl opuslen, file1) =>
          if opuslen <? 0 then Panic "makeslice: len out of range"
          else
            match binary_Read_bytes (Z.to_nat opuslen) file1 with
            | (inr err, _) => Ret (buf, Some err)
            | (inl InBuf, file2) => Load_frames fuel' file2 (buf ++ [InBuf])
            end
      end
  end.

(** [fmt.Sprintf("audio/%v_%v.dca", c.Prefix, s.Name)]. *)
Definition dca_path (c : SoundCollection) (s : Sound) : string :=
  "audio/" +:+ Prefix c +:+ "_" +:+ Name s +:+ ".dca".

Definition set_buffer (s : Sound) (buf : list (list byte)) : Sound :=
  {| Name := Name s; Weight := Weight s; PartDelay := PartDelay s; buffer := buf |}.

(** [Sound.Load]: the clip as the call leaves it, and the error returned
    ([None] is [nil]).  [fs] maps a path to the file [os.Open] yields. *)
Definition Sound_Load (fs : gmap string File) (c : SoundCollection) (s : Sound)
  : outcome (Sound * option error) :=
  match fs !! dca_path c s with
  | None => Ret (s, Some ErrNotExist)
  | Some file =>
      obind (Load_frames (S (length (contents file))) file (buffer s))
            (fun r => Ret (set_buffer s r.1, r.2))
  end.

(** The loop of [SoundCollection.Load]; the error of [sound.Load] is
    dropped there. *)
Fixpoint Load_sounds (fs : gmap string File) (sc : SoundCollection)
    (range : Z) (sounds : list Sound) : outcome (Z * list Sound) :=
  match sounds with
  | [] => Ret (range, [])
  | sound :: rest =>
      let range' := GoInt.add range (Weight sound) in
      obind (Sound_Load fs sc sound) (fun r =>
      obind (Load_sounds fs sc range' rest) (fun rs =>
      Ret (rs.1, r.1 :: rs.2)))
  end.

(** [SoundCollection.Load]. *)
Definition SoundCollection_Load (fs : gmap string File) (sc : SoundCollection)
  : outcome SoundCollection :=
  obind (Load_sounds fs sc (soundRange sc) (Sounds sc)) (fun rs =>
  Ret {| Prefix := Prefix sc; Commands := Commands sc; Sounds := rs.2;
         ChainWith := ChainWith sc; soundRange := rs.1 |}).

(** *** The resource format in the specification's words *)

Definition byte_of_Z (z : Z) : byte := default x00 (Byte.of_N (Z.to_N z)).

(** A 16-bit little-endian length. *)
Definition le16 (n : Z) : list byte := [byte_of_Z (n mod 256); byte_of_Z (n / 256 mod 256)].

(** A frame: its length, then its payload. *)
Definition encode_frame (frame : list byte) : list byte :=
  le16 (Z.of_nat (length frame)) ++ frame.

Definition encode_frames (frames : list (list byte)) : list byte :=
  concat (map encode_frame frames).

(** A payload short enough for its length to be a non-negative [int16]. *)
Definition short_frame (frame : list byte) : Prop := Z.of_nat (length frame) < 2 ^ 15.

(** ** Requests, queues and the voice transport *)

(** [Play]: one use of a command.  [Play_Sound] is the field [Sound]
    ([None] for [nil]), [Next] the chained request. *)
Inductive Play : Type := mkPlay {
  GuildID : string;
  ChannelID : string;
  UserID : string;
  Play_Sound : option Sound;
  Next : option Play;
  Forced : bool
}.

(** What [createPlay] reads of [discordgo.User], [discordgo.VoiceState],
    [discordgo.Guild] and [discordgo.Channel]. *)
Record User : Type := mkUser { User_ID : string }.
Record VoiceState : Type := mkVoiceState { vs_UserID : string; vs_ChannelID : string }.
Record Guild : Type := mkGuild { Guild_ID : string; VoiceStates : list VoiceState }.
Record Channel : Type := mkChannel { Channel_ID : string }.

(** A [*discordgo.VoiceConnection]: [vc_id] tells the connections apart,
    [vc_ChannelID] is the field [ChannelID]. *)
Record VoiceConnection : Type := mkVoiceConnection {
  vc_id : nat;
  vc_GuildID : string;
  vc_ChannelID : string
}.

(** The global [discord]: the channels its state knows, and whether the
    n-th call of [ChannelVoiceJoin] succeeds. *)
Record Session : Type := mkSession {
  State_Channel : gmap string Channel;
  join_ok : nat -> string -> string -> bool
}.

(** A buffered [chan *Play]. *)
Record chan : Type := mkChan {
  cap : nat;
  items : list Play
}.

Definition MAX_QUEUE_SIZE : nat := 6.

(** [make(chan *Play, n)]. *)
Definition make_chan (n : nat) : chan := {| cap := n; items := [] |}.

(** The mutable globals: the map [queues], and the number of joins the
    transport has been asked for. *)
Record world : Type := mkWorld {
  queues : gmap string chan;
  joins : nat
}.

(** What a run does to the outside, in order. *)
Inductive event : Type :=
| EvLog (msg : string)
| EvJoin (gid cid : string)               (* discord.ChannelVoiceJoin *)
| EvChangeChannel (vc : nat) (cid : string)
| EvSleep (ms : Z)                        (* time.Sleep, in milliseconds *)
| EvStats (play : Play)                   (* go trackSoundStats(play) *)
| EvSpeaking (vc : nat) (b : bool)
| EvOpusSend (vc : nat) (frame : list byte)
| EvDelete (gid : string)                 (* delete(queues, gid) *)
| EvDisconnect (vc : nat).

(** *** Calls that log, change the globals, and may panic *)

Definition M (A : Type) : Type := world -> list event * world * outcome A.

Definition ret {A} (a : A) : M A := fun w => ([], w, Ret a).

Definition bind {A B} (m : M A) (k : A -> M B) : M B := fun w =>
  match m w with
  | (tr, w1, Ret a) =>
      match k a w1 with (tr2, w2, r) => (tr ++ tr2, w2, r) end
  | (tr, w1, Panic msg) => (tr, w1, Panic msg)
  | (tr, w1, Diverged) => (tr, w1, Diverged)
  end.

Notation "'let*' x ':=' m 'in' k" := (bind m (fun x => k))
  (at level 10, x name, m at level 100, k at level 200, only parsing).
Notation "m '>>' k" := (bind m (fun _ => k))
  (at level 100, k at level 200, right associativity, only parsing).

Definition emit (e : event) : M unit := fun w => ([e], w, Ret tt).
Definition emits (es : list event) : M unit := fun w => (es, w, Ret tt).
Definition panic {A} (msg : string) : M A := fun w => ([], w, Panic msg).
Definition diverge {A} : M A := fun w => ([], w, Diverged).
Definition lift {A} (o : outcome A) : M A := fun w => ([], w, o).
Definition get_queues : M (gmap string chan) := fun w => ([], w, Ret (queues w)).
Definition set_queues (q : gmap string chan) : M unit :=
  fun w => ([], {| queues := q; joins := joins w |}, Ret tt).

(** [delete(queues, gid)]. *)
Definition delete_queue (gid : string) : M unit :=
  let* q := get_queues in
  emit (EvDelete gid) >> set_queues (delete gid q).

(** [len(queues[gid])]; a missing entry is a nil channel, of length 0. *)
Definition queue_len (q : gmap string chan) (gid : string) : nat :=
  match q !! gid with
  | Some ch => length (items ch)
  | None => 0%nat
  end.

(** [discord.ChannelVoiceJoin(gid, cid, false, false)]. *)
Definition ChannelVoiceJoin (discord : Session) (gid cid : string)
  : M (VoiceConnection + error) := fun w =>
  let n := joins w in
  ([EvJoin gid cid], {| queues := queues w; joins := S n |},
   Ret (if join_ok discord n gid cid
        then inl {| vc_id := n; vc_GuildID := gid; vc_ChannelID := cid |}
        else inr ErrVoiceJoin)).

(** [vc.ChangeChannel(cid, false, false)]: the connection afterwards. *)
Definition ChangeChannel (vc : VoiceConnection) (cid : string) : M VoiceConnection :=
  emit (EvChangeChannel (vc_id vc) cid) >>
  ret {| vc_id := vc_id vc; vc_GuildID := vc_GuildID vc; vc_ChannelID := cid |}.

(** [Sound.Play]: [vc.Speaking(true)], the frames in order, and the
    deferred [vc.Speaking(false)], which also runs when the receiver is
    nil and reading its buffer panics. *)
Definition Sound_Play (s : option Sound) (vc : VoiceConnection) : M unit :=
  match s with
  | Some s =>
      emit (EvSpeaking (vc_id vc) true) >>
      emits (map (EvOpusSend (vc_id vc)) (buffer s)) >>
      emit (EvSpeaking (vc_id vc) false)
  | None =>
      emit (EvSpeaking (vc_id vc) true) >>
      emit (EvSpeaking (vc_id vc) false) >>
      panic "invalid memory address or nil pointer dereference"
  end.

(** *** The request builder *)

(** [getCurrentVoiceChannel]: the loop over [guild.VoiceStates]. *)
Fixpoint find_voice_channel (discord : Session) (user : User)
    (states : list VoiceState) : option Channel :=
  match states with
  | [] => None
  | vs :: rest =>
      if decide (vs_UserID vs = User_ID user)
      then State_Channel discord !! vs_ChannelID vs
      else find_voice_channel discord user rest
  end.

Definition getCurrentVoiceChannel (discord : Session) (user : User) (guild : Guild)
  : option Channel :=
  find_voice_channel discord user (VoiceStates guild).

(** [createPlay]; [src1] and [src2] feed the two calls of [Random]. *)
Definition createPlay (discord : Session) (src1 src2 : Z)
    (user : User) (guild : Guild) (coll : SoundCollection) (sound : option Sound)
  : M (option Play) :=
  match getCurrentVoiceChannel discord user guild with
  | None =>
      emit (EvLog "Failed to find channel to play sound in") >> ret None
  | Some channel =>
      let* chosen :=
        match sound with
        | Some s => ret (Some s, true)
        | None => let* r := lift (Random src1 coll) in ret (r, false)
        end in
      let* next :=
        match ChainWith coll with
        | Some target =>
            let* r := lift (Random src2 target) in
            ret (Some {| GuildID := Guild_ID guild;
                         ChannelID := Channel_ID channel;
                         UserID := User_ID user;
                         Play_Sound := r;
                         Next := None;
                         Forced := chosen.2 |})
        | None => ret None
        end in
      ret (Some {| GuildID := Guild_ID guild;
                   ChannelID := Channel_ID channel;
                   UserID := User_ID user;
                   Play_Sound := chosen.1;
                   Next := next;
                   Forced := chosen.2 |})
  end.

(** The flag [Forced] that [createPlay] gives a request. *)
Definition forced_of (sound : option Sound) : bool :=
  match sound with Some _ => true | None => false end.

(** The follow-up and the request that [createPlay] builds for a chained
    collection, [first] and [second] being the clips chosen. *)
Definition follow_up (user : User) (guild : Guild) (channel : Channel)
    (sound second : option Sound) : Play :=
  {| GuildID := Guild_ID guild; ChannelID := Channel_ID channel;
     UserID := User_ID user; Play_Sound := second; Next := None;
     Forced := forced_of sound |}.

Definition chained (user : User) (guild : Guild) (channel : Channel)
    (sound first second : option Sound) : Play :=
  {| GuildID := Guild_ID guild; ChannelID := Channel_ID channel;
     UserID := User_ID user; Play_Sound := first;
     Next := Some (follow_up user guild channel sound second);
     Forced := forced_of sound |}.

(** *** The playback driver *)

(** Lines 559-569 of [playSound]: the connection to use, or the error
    that ends the run. *)
Definition acquire (discord : Session) (play : Play) (vc : option VoiceConnection)
  : M (VoiceConnection + error) :=
  match vc with
  | Some vc => ret (inl vc)
  | None =>
      let* r := ChannelVoiceJoin discord (GuildID play) (ChannelID play) in
      match r with
      | inl vc => ret (inl vc)
      | inr err =>
          emit (EvLog "Failed to play sound") >>
          delete_queue (GuildID play) >>
          ret (inr err)
      end
  end.

(** Lines 571-584: change channel if needed, report the play, wait the
    pre-roll delay and send the clip. *)
Definition perform (play : Play) (vc : VoiceConnection) : M VoiceConnection :=
  let* vc :=
    if decide (vc_ChannelID vc = ChannelID play) then ret vc
    else (let* vc := ChangeChannel vc (ChannelID play) in
          emit (EvSleep 125) >> ret vc) in
  emit (EvStats play) >>
  emit (EvSleep 32) >>
  Sound_Play (Play_Sound play) vc >>
  ret vc.

(** Lines 591-602: take the next queued request, or tear down.
    [playSound] is the recursive call. *)
Definition drain (playSound : Play -> option VoiceConnection -> M (option error))
    (play : Play) (vc : VoiceConnection) : M (option error) :=
  let* q := get_queues in
  match q !! GuildID play with
  | Some (mkChan n (next :: rest)) =>
      set_queues (<[GuildID play := mkChan n rest]> q) >>
      playSound next (Some vc) >>
      ret None
  | _ =>
      match Play_Sound play with
      | None => panic "invalid memory address or nil pointer dereference"
      | Some s =>
          emit (EvSleep (PartDelay s)) >>
          delete_queue (GuildID play) >>
          emit (EvDisconnect (vc_id vc)) >>
          ret None
      end
  end.

Arguments drain : simpl never.
Arguments perform : simpl never.
Arguments acquire : simpl never.

(** [playSound].  [fuel] bounds the depth of the recursion. *)
Fixpoint playSound (discord : Session) (fuel : nat) (play : Play)
    (vc : option VoiceConnection) : M (option error) :=
  match fuel with
  | O => diverge
  | S fuel =>
      emit (EvLog "Playing sound") >>
      let* r := acquire discord play vc in
      match r with
      | inr err => ret (Some err)
      | inl vc =>
          let* vc := perform play vc in
          match Next play with
          | Some next => playSound discord fuel next (Some vc) >> ret tt
          | None => ret tt
          end >>
          drain (playSound discord fuel) play vc
      end
  end.

(** What the caller of a recursive [playSound] does with its result:
    [return nil]. *)
Definition return_nil (r : outcome (option error)) : outcome (option error) :=
  obind r (fun _ => Ret None).

(** *** The guild queue manager *)

(** Lines 505-516 of [enqueuePlay], for the request [createPlay] built. *)
Definition enqueue (discord : Session) (fuel : nat) (guild : Guild) (play : Play)
  : M unit :=
  let* q := get_queues in
  match q !! Guild_ID guild with
  | Some ch =>
      if decide (length (items ch) < MAX_QUEUE_SIZE)%nat then
        if decide (length (items ch) < cap ch)%nat then
          set_queues (<[Guild_ID guild := mkChan (cap ch) (items ch ++ [play])]> q)
        else diverge   (* a send on a full channel blocks *)
      else ret tt
  | None =>
      set_queues (<[Guild_ID guild := make_chan MAX_QUEUE_SIZE]> q) >>
      playSound discord fuel play None >>
      ret tt
  end.

(** [enqueuePlay]. *)
Definition enqueuePlay (discord : Session) (fuel : nat) (src1 src2 : Z)
    (user : User) (guild : Guild) (coll : SoundCollection) (sound : option Sound)
  : M unit :=
  let* play := createPlay discord src1 src2 user guild coll sound in
  match play with
  | None => ret tt
  | Some play => enqueue discord fuel guild play
  end.

(** What [enqueuePlay] returns to its caller after the run it started:
    nothing, whatever [playSound] returned. *)
Definition discard {A} (r : outcome A) : outcome unit :=
  match r with
  | Ret _ => Ret tt
  | Panic msg => Panic msg
  | Diverged => Diverged
  end.

(** The requests [plays] submitted one after the other. *)
Fixpoint submit_all (discord : Session) (fuel : nat) (guild : Guild)
    (plays : list Play) : M unit :=
  match plays with
  | [] => ret tt
  | play :: rest =>
      enqueue discord fuel guild play >> submit_all discord fuel guild rest
  end.

(** *** The recursion budget of a run, and requests that stay in their guild *)







(** *** What a run is expected to show *)

(** The connection after a request for the channel [cid] was served on it. *)
Definition move (vc : VoiceConnection) (cid : string) : VoiceConnection :=
  if decide (vc_ChannelID vc = cid) then vc
  else {| vc_id := vc_id vc; vc_GuildID := vc_GuildID vc; vc_ChannelID := cid |}.

(** The connection a successful join number [n] yields. *)
Definition joined (n : nat) (play : Play) : VoiceConnection :=
  {| vc_id := n; vc_GuildID := GuildID play; vc_ChannelID := ChannelID play |}.

(** The world after one more join. *)
Definition after_join (w : world) : world :=
  {| queues := queues w; joins := S (joins w) |}.

(** The world with the queue of [gid] set to [ch], or removed. *)
Definition with_queue (gid : string) (ch : chan) (w : world) : world :=
  {| queues := <[gid := ch]> (queues w); joins := joins w |}.


(** One play of the clip [s] for the request [play] on [vc]. *)
Definition play_events (play : Play) (s : Sound) (vc : VoiceConnection) : list event :=
  (if decide (vc_ChannelID vc = ChannelID play) then []
   else [EvChangeChannel (vc_id vc) (ChannelID play); EvSleep 125]) ++
  [EvStats play; EvSleep 32; EvSpeaking (vc_id vc) true] ++
  map (EvOpusSend (vc_id vc)) (buffer s) ++
  [EvSpeaking (vc_id vc) false].


(** The two plays of a chained request on [vc], one right after the other. *)
Definition chain_events (play next : Play) (s1 s2 : Sound) (vc : VoiceConnection)
  : list event :=
  EvLog "Playing sound" :: play_events play s1 vc ++
  EvLog "Playing sound" :: play_events next s2 (move vc (ChannelID play)).



(** ** Goroutines: submissions and runs interleaved *)

(** Every command is served by [go enqueuePlay(...)], so calls of
    [enqueuePlay] and the runs they start execute interleaved, one
    statement at a time, over the shared map [queues].  A goroutine is the
    stack of its calls; a call is at a statement of [enqueuePlay]
    (after [createPlay] returned [play]) or of [playSound]. *)
Inductive enq_pc : Type :=
| EnqCheck    (* line 507: _, exists := queues[guild.ID] *)
| EnqLen      (* line 510: len(queues[guild.ID]) < MAX_QUEUE_SIZE *)
| EnqSend     (* line 511: queues[guild.ID] <- play *)
| EnqMake     (* line 514: queues[guild.ID] = make(chan *Play, MAX_QUEUE_SIZE) *)
| EnqCall     (* line 515: playSound(play, nil) *)
| EnqDone.    (* return *)

Inductive play_pc : Type :=
| PsAcquire     (* lines 559-569 *)
| PsPerform     (* lines 571-584 *)
| PsChain       (* lines 586-589 *)
| PsDrain       (* lines 591-596 *)
| PsSleep       (* line 599 *)
| PsDelete      (* line 600 *)
| PsDisconnect  (* line 601 *)
| PsReturn.     (* return *)

Inductive frame : Type :=
| FEnq (pc : enq_pc) (play : Play)
| FPlay (pc : play_pc) (play : Play) (vc : option VoiceConnection).

(** The program: the shared globals, the goroutines, and whether a panic
    has ended it. *)
Record state : Type := mkState {
  st_queues : gmap string chan;
  st_joins : nat;
  st_threads : list (list frame);
  st_halted : bool
}.

(** One statement of the call [top], whose callers are [below]: the new
    globals, the new stack, and whether the statement panicked.  [None]:
    the statement blocks. *)
Definition step_frame (discord : Session) (q : gmap string chan) (j : nat)
    (top : frame) (below : list frame)
  : option (gmap string chan * nat * list frame * bool) :=
  match top with
  | FEnq EnqCheck p =>
      Some (q, j,
            FEnq (match q !! GuildID p with Some _ => EnqLen | None => EnqMake end) p
              :: below, false)
  | FEnq EnqLen p =>
      Some (q, j,
            FEnq (if decide (queue_len q (GuildID p) < MAX_QUEUE_SIZE)%nat
                  then EnqSend else EnqDone) p :: below, false)
  | FEnq EnqSend p =>
      match q !! GuildID p with
      | Some ch =>
          if decide (length (items ch) < cap ch)%nat
          then Some (<[GuildID p := mkChan (cap ch) (items ch ++ [p])]> q, j,
                     FEnq EnqDone p :: below, false)
          else None
      | None => None
      end
  | FEnq EnqMake p =>
      Some (<[GuildID p := make_chan MAX_QUEUE_SIZE]> q, j, FEnq EnqCall p :: below, false)
  | FEnq EnqCall p =>
      Some (q, j, FPlay PsAcquire p None :: FEnq EnqDone p :: below, false)
  | FEnq EnqDone p => Some (q, j, below, false)
  | FPlay PsAcquire p (Some vc) =>
      Some (q, j, FPlay PsPerform p (Some vc) :: below, false)
  | FPlay PsAcquire p None =>
      if join_ok discord j (GuildID p) (ChannelID p)
      then Some (q, S j, FPlay PsPerform p (Some (joined j p)) :: below, false)
      else Some (delete (GuildID p) q, S j, FPlay PsReturn p None :: below, false)
  | FPlay PsPerform p vc =>
      match vc, Play_Sound p with
      | Some vc, Some _ =>
          Some (q, j, FPlay PsChain p (Some (move vc (ChannelID p))) :: below, false)
      | _, _ => Some (q, j, top :: below, true)
      end
  | FPlay PsChain p vc =>
      match Next p with
      | Some next => Some (q, j, FPlay PsAcquire next vc :: FPlay PsDrain p vc :: below, false)
      | None => Some (q, j, FPlay PsDrain p vc :: below, false)
      end
  | FPlay PsDrain p vc =>
      match q !! GuildID p with
      | Some (mkChan n (next :: rest)) =>
          Some (<[GuildID p := mkChan n rest]> q, j,
                FPlay PsAcquire next vc :: FPlay PsReturn p vc :: below, false)
      | _ => Some (q, j, FPlay PsSleep p vc :: below, false)
      end
  | FPlay PsSleep p vc => Some (q, j, FPlay PsDelete p vc :: below, false)
  | FPlay PsDelete p vc =>
      Some (delete (GuildID p) q, j, FPlay PsDisconnect p vc :: below, false)
  | FPlay PsDisconnect p vc => Some (q, j, FPlay PsReturn p vc :: below, false)
  | FPlay PsReturn p vc => Some (q, j, below, false)
  end.

(** Goroutine [i] executes one statement. *)
Definition step (discord : Session) (i : nat) (st : state) : option state :=
  if st_halted st then None
  else
    match st_threads st !! i with
    | Some (top :: below) =>
        match step_frame discord (st_queues st) (st_joins st) top below with
        | Some (q, j, stack, halted) =>
            Some {| st_queues := q; st_joins := j;
                    st_threads := <[i := stack]> (st_threads st);
                    st_halted := halted |}
        | None => None
        end
    | _ => None
    end.

(** A schedule: the goroutines in the order in which they take a step. *)
Fixpoint run (stepf : nat -> state -> option state) (sched : list nat) (st : state)
  : option state :=
  match sched with
  | [] => Some st
  | i :: rest =>
      match stepf i st with
      | Some st' => run stepf rest st'
      | None => None
      end
  end.

(** The program with a submission pending for each request of [plays]. *)
Definition submissions (plays : list Play) : state :=
  {| st_queues := ∅; st_joins := 0;
     st_threads := map (fun p => [FEnq EnqCheck p]) plays;
     st_halted := false |}.

(** A goroutine carries a run of [g] that can still use the queue entry
    of [g]: it is about to call [playSound], or executes a call of
    [playSound] for [g] that has not passed its [delete]. *)
Definition before_delete (pc : play_pc) : bool :=
  match pc with
  | PsAcquire | PsPerform | PsChain | PsDrain | PsSleep | PsDelete => true
  | PsDisconnect | PsReturn => false
  end.

Definition holds (g : string) (stack : list frame) : bool :=
  match stack with
  | FEnq EnqCall p :: _ => bool_decide (GuildID p = g)
  | FPlay pc p _ :: _ => bool_decide (GuildID p = g) && before_delete pc
  | _ => false
  end.

(** The number of runs of [g] in flight. *)
Definition runs_of (g : string) (threads : list (list frame)) : nat :=
  length (List.filter (holds g) threads).

Arguments runs_of : simpl never.

(** A goroutine is between the check of line 507 and the statement that
    acts on it. *)
Definition critical (stack : list frame) : bool :=
  match stack with
  | FEnq (EnqLen | EnqSend | EnqMake) _ :: _ => true
  | _ => false
  end.

(** No goroutine other than [i] is between its check and its act. *)
Definition quiet_except (i : nat) (threads : list (list frame)) : bool :=
  forallb (fun jt => (jt.1 =? i)%nat || negb (critical jt.2)) (imap pair threads).

(** A step that does not interleave with the check-then-act of another
    submission. *)
Definition serial_step (discord : Session) (i : nat) (st : state) : option state :=
  if quiet_except i (st_threads st) then step discord i st else None.

(** *** The invariant of the gate *)

(** A request without follow-up. *)
Definition plain (p : Play) : Prop := Next p = None.

Definition frame_play (f : frame) : Play :=
  match f with
  | FEnq _ p => p
  | FPlay _ p _ => p
  end.

(** A call that only has to return once its callee has. *)
Definition returning (f : frame) : Prop :=
  match f with
  | FEnq EnqDone _ | FPlay PsReturn _ _ => True
  | _ => False
  end.

(** The stacks of goroutines that serve plain requests: below the
    executing call, every call has nothing left to do but to return. *)
Definition stack_ok (stack : list frame) : Prop :=
  Forall (fun f => plain (frame_play f)) stack /\
  match stack with
  | [] => True
  | _ :: below => Forall returning below
  end.

(** What a submission that is about to create the queue has seen. *)
Definition observed (q : gmap string chan) (stack : list frame) : Prop :=
  match stack with
  | FEnq EnqMake p :: _ => q !! GuildID p = None
  | _ => True
  end.

Record gate_inv (st : state) : Prop := mkGateInv {
  gate_runs : forall g,
    (runs_of g (st_threads st) <= 1)%nat /\
    (is_Some (st_queues st !! g) <-> runs_of g (st_threads st) = 1%nat);
  gate_queue : forall g ch,
    st_queues st !! g = Some ch ->
    Forall (fun p => GuildID p = g /\ plain p) (items ch);
  gate_stacks : Forall stack_ok (st_threads st);
  gate_observed : Forall (observed (st_queues st)) (st_threads st)
}.

(** ** Sample data *)

Definition clip_default : Sound := createSound "default" 1000 250.
Definition clip_spam : Sound := createSound "spam" 800 0.
Definition clip_truck : Sound := createSound "truck" 10 250.
Definition clip_one : Sound := createSound "one" 1 250.

Definition airhorn_sounds : list Sound :=
  [ clip_default; createSound "reverb" 800 250; clip_spam;
    createSound "tripletap" 800 250; createSound "fourtap" 800 250;
    createSound "distant" 500 250; createSound "echo" 500 250;
    createSound "clownfull" 250 250; createSound "clownshort" 250 250;
    createSound "clownspam" 250 0; createSound "highfartlong" 200 250;
    createSound "highfartshort" 200 250; createSound "midshort" 100 250;
    clip_truck ].

(** The literal [AIRHORN] of the source. *)
Definition AIRHORN_literal : SoundCollection :=
  {| Prefix := "airhorn"; Commands := ["!airhorn"%string];
     Sounds := airhorn_sounds; ChainWith := None; soundRange := 0 |}.

(** [AIRHORN] as [main] leaves it, after [coll.Load()]. *)
Definition AIRHORN : SoundCollection :=
  {| Prefix := "airhorn"; Commands := ["!airhorn"%string];
     Sounds := airhorn_sounds; ChainWith := None; soundRange := 6460 |}.

(** [KHALED], chained with [AIRHORN], after [coll.Load()]. *)
Definition KHALED : SoundCollection :=
  {| Prefix := "another"; Commands := ["!anotha"%string; "!anothaone"%string];
     Sounds := [clip_one; createSound "one_classic" 1 250; createSound "one_echo" 1 250];
     ChainWith := Some AIRHORN; soundRange := 3 |}.

(** A file system holding [data] as the resource of [clip_default]. *)
Definition one_file (data : list byte) : gmap string File :=
  {[ dca_path AIRHORN clip_default := mkFile data false ]}.

(** A session on which every join fails, and one on which every join succeeds. *)
Definition deaf_session : Session :=
  {| State_Channel := {[ "c1"%string := mkChannel "c1" ]}; join_ok := fun _ _ _ => false |}.

Definition live_session : Session :=
  {| State_Channel := {[ "c1"%string := mkChannel "c1" ]}; join_ok := fun _ _ _ => true |}.

Definition user_u1 : User := {| User_ID := "u1" |}.

Definition guild_g1 : Guild :=
  {| Guild_ID := "g1"; VoiceStates := [mkVoiceState "u1" "c1"] |}.

Definition vc_g1 : VoiceConnection :=
  {| vc_id := 0; vc_GuildID := "g1"; vc_ChannelID := "c1" |}.

(** Requests of the guild [g1] for the channel [c1]. *)
Definition request (user : string) : Play :=
  {| GuildID := "g1"; ChannelID := "c1"; UserID := user;
     Play_Sound := Some clip_default; Next := None; Forced := false |}.

(** The chained request [createPlay] builds for [user_u1] when the
    second draw falls on [clip_spam]. *)
Definition chained_request : Play :=
  {| GuildID := "g1"; ChannelID := "c1"; UserID := "u1";
     Play_Sound := Some clip_one;
     Next := Some {| GuildID := "g1"; ChannelID := "c1"; UserID := "u1";
                     Play_Sound := Some clip_spam; Next := None; Forced := false |};
     Forced := false |}.

(** Sample worlds: the guild [g1] idle, active with an empty queue, and
    active with two requests waiting. *)
Definition w_idle : world := {| queues := ∅; joins := 0 |}.

Definition w_active : world := with_queue "g1" (make_chan MAX_QUEUE_SIZE) w_idle.

Definition w_busy : world :=
  with_queue "g1" (mkChan MAX_QUEUE_SIZE [request "u2"; request "u3"]) w_idle.

(** ** Strings and numbers of the Go library *)

(** A Go string is its sequence of bytes, and so is a [string] here;
    [len(s)] is [String.length s]. *)

Definition LF : string := String (ascii_of_nat 10) EmptyString.    (* the escape \n *)
Definition TAB : string := String (ascii_of_nat 9) EmptyString.    (* the escape \t *)

(** [strings.HasPrefix(s, prefix)]. *)
Definition HasPrefix (s prefix : string) : bool := String.prefix prefix s.

(** [strings.Split(s, sep)] for a separator of one byte: the pieces
    between the occurrences of [sep], one more than there are
    occurrences. *)
Fixpoint Split (s : string) (sep : ascii) : list string :=
  match s with
  | EmptyString => [EmptyString]
  | String c rest =>
      if decide (c = sep) then EmptyString :: Split rest sep
      else
        match Split rest sep with
        | piece :: pieces => String c piece :: pieces
        | [] => [String c EmptyString]
        end
  end.

(** [strings.Join(pieces, sep)]. *)
Definition Join (pieces : list string) (sep : string) : string := String.concat sep pieces.

Fixpoint all_bytes (f : ascii -> bool) (s : string) : bool :=
  match s with
  | EmptyString => true
  | String c rest => f c && all_bytes f rest
  end.

Fixpoint map_bytes (f : ascii -> ascii) (s : string) : string :=
  match s with
  | EmptyString => EmptyString
  | String c rest => String (f c) (map_bytes f rest)
  end.

(** A byte below [utf8.RuneSelf]. *)
Definition is_ASCII (c : ascii) : bool := (nat_of_ascii c <? 128)%nat.

(** ['A' <= c && c <= 'Z'], and [c + ('a' - 'A')] for such a byte. *)
Definition is_upper (c : ascii) : bool :=
  (65 <=? nat_of_ascii c)%nat && (nat_of_ascii c <=? 90)%nat.

Definition lower_byte (c : ascii) : ascii :=
  if is_upper c then ascii_of_nat (nat_of_ascii c + 32) else c.

(** [strings.ToLower]: on a string of ASCII bytes the upper-case letters
    are replaced by their lower-case ones; any other string is mapped
    rune by rune with the Unicode tables, which are the library's
    ([unicode_ToLower]). *)
Definition ToLower (unicode_ToLower : string -> string) (s : string) : string :=
  if all_bytes is_ASCII s then map_bytes lower_byte s else unicode_ToLower s.

(** [strings.Replace(s, old, new, 1)]: the first occurrence of [old]
    replaced by [new]; an empty [old] matches at the start of [s]. *)
Definition Replace_1 (s old new : string) : string :=
  if decide (old = new) then s
  else
    match String.index 0 old s with
    | Some j =>
        let k := (j + String.length old)%nat in
        String.substring 0 j s +:+ new +:+ String.substring k (String.length s - k) s
    | None => s
    end.

Fixpoint repeat_string (n : nat) (s : string) : string :=
  match n with
  | O => EmptyString
  | S n => s +:+ repeat_string n s
  end.

(** [strings.Repeat(s, count)]: it panics on a negative count and when
    the length of the result overflows an [int]. *)
Definition Repeat (s : string) (count : Z) : outcome string :=
  if count <? 0 then Panic "strings: negative Repeat count"
  else if GoInt.max_int <? Z.of_nat (String.length s) * count
  then Panic "strings: Repeat count causes overflow"
  else Ret (repeat_string (Z.to_nat count) s).

(** The value of a decimal digit. *)
Definition digit_value (c : ascii) : option Z :=
  if (48 <=? nat_of_ascii c)%nat && (nat_of_ascii c <=? 57)%nat
  then Some (Z.of_nat (nat_of_ascii c) - 48)
  else None.

(** The errors of [strconv]. *)
Inductive NumError : Type :=
| ErrSyntax
| ErrRange.

Definition maxUint64 : Z := 2 ^ 64 - 1.

(** The loop of [strconv.ParseUint(s, 10, 0)] over the bytes of [s], [n]
    being the number read so far: a byte that is no digit ends it with
    a syntax error; a digit with which the number would pass
    [maxUint64] ends it at once with [maxUint64] and a range error,
    whatever follows. *)
Fixpoint ParseUint_digits (n : Z) (s : string) : Z * option NumError :=
  match s with
  | EmptyString => (n, None)
  | String c rest =>
      match digit_value c with
      | None => (0, Some ErrSyntax)
      | Some d =>
          if maxUint64 <? 10 * n + d then (maxUint64, Some ErrRange)
          else ParseUint_digits (10 * n + d) rest
      end
  end.

(** [strconv.ParseUint(s, 10, 0)]. *)
Definition ParseUint (s : string) : Z * option NumError :=
  match s with
  | EmptyString => (0, Some ErrSyntax)
  | _ => ParseUint_digits 0 s
  end.

(** [strconv.ParseInt(s, 10, 0)]: a sign, then [ParseUint]; a syntax
    error gives 0, a number out of the range of [int] the nearest
    bound. *)
Definition ParseInt (s : string) : Z * option NumError :=
  match s with
  | EmptyString => (0, Some ErrSyntax)
  | String c rest =>
      let neg := bool_decide (c = "-"%char) in
      let digits := if bool_decide (c = "+"%char) || neg then rest else s in
      match ParseUint digits with
      | (_, Some ErrSyntax) => (0, Some ErrSyntax)
      | (un, _) =>
          if negb neg && (2 ^ 63 <=? un) then (2 ^ 63 - 1, Some ErrRange)
          else if neg && (2 ^ 63 <? un) then (- 2 ^ 63, Some ErrRange)
          else (if neg then - un else un, None)
      end
  end.

(** [strconv.Atoi] with its error dropped, as all its callers here do
    ([count, _ := strconv.Atoi(cs)]): the number of [ParseInt].  (On a
    string of fewer than 19 bytes [Atoi] takes a path of its own, which
    gives the same number: such a string cannot leave the range.) *)
Definition Atoi (s : string) : Z := (ParseInt s).1.

(** The verb [%v] of [fmt] on an [int]: its decimal notation. *)
Definition format_int (z : Z) : string := NilZero.string_of_int (Z.to_int z).

(** ** Usage statistics *)

(** The commands [trackSoundStats] puts in its Redis pipeline. *)
Inductive redis_cmd : Type :=
| Incr (key : string)
| SAdd (key member : string).

Global Instance redis_cmd_eq_dec : EqDecision redis_cmd.
Proof. solve_decision. Defined.

(** The Redis client [rcli], as far as this program uses it: the result
    of [rcli.Keys(pattern).Result()] ([None] when it fails), the [Val()]
    of a [GET] (the empty string when there is none), and whether a
    pipeline of commands goes through. *)
Record Redis : Type := mkRedis {
  redis_Keys : string -> option (list string);
  redis_Get : string -> string;
  redis_Exec : list redis_cmd -> bool
}.

(** The body of the pipeline of [trackSoundStats] for a request with the
    clip [s]; [base] is ["airhorn:f"] for a forced play and
    ["airhorn:a"] otherwise. *)
Definition stats_base (play : Play) : string :=
  "airhorn:" +:+ (if Forced play then "f" else "a").

Definition stats_pipeline (play : Play) (s : Sound) : list redis_cmd :=
  let base := stats_base play in
  [ Incr "airhorn:total";
    Incr (base +:+ ":total");
    Incr (base +:+ ":sound:" +:+ Name s);
    Incr (base +:+ ":user:" +:+ UserID play +:+ ":sound:" +:+ Name s);
    Incr (base +:+ ":guild:" +:+ GuildID play +:+ ":sound:" +:+ Name s);
    Incr (base +:+ ":guild:" +:+ GuildID play +:+ ":chan:" +:+ ChannelID play
            +:+ ":sound:" +:+ Name s);
    SAdd (base +:+ ":users") (UserID play);
    SAdd (base +:+ ":guilds") (GuildID play);
    SAdd (base +:+ ":channels") (ChannelID play) ].

(** [trackSoundStats]: the commands of its pipeline and what is logged.
    Without a client it does nothing; a request without clip panics
    inside the pipeline, before anything is sent. *)
Definition trackSoundStats (rcli : option Redis) (play : Play)
  : outcome (list redis_cmd * list event) :=
  match rcli with
  | None => Ret ([], [])
  | Some r =>
      match Play_Sound play with
      | None => Panic "invalid memory address or nil pointer dereference"
      | Some s =>
          let cmds := stats_pipeline play s in
          Ret (cmds, if redis_Exec r cmds then []
                     else [EvLog "Failed to track stats in redis"])
      end
  end.

(** [utilSumRedisKeys]: the values of [keys], read as numbers, added up
    in an [int]. *)
Definition utilSumRedisKeys (r : Redis) (keys : list string) : Z :=
  fold_left (fun total key => GoInt.add total (Atoi (redis_Get r key))) keys 0.

(** The values of [keys], read as numbers, added up as integers. *)
Definition sum_values (r : Redis) (keys : list string) : Z :=
  foldr (fun key acc => Atoi (redis_Get r key) + acc) 0 keys.

(** ** The message handlers *)

(** What the handlers read of a [discordgo.MessageCreate].
    [ContentReplaced] is what the library's
    [m.ContentWithMentionsReplaced()] returns for it. *)
Record Message : Type := mkMessage {
  msg_ID : string;
  Content : string;
  ContentReplaced : string;
  msg_ChannelID : string;
  Author : User;
  Mentions : list User
}.

(** The globals and the session state the handlers read: the session
    [discord] (the handlers' [s] is the same session), the user
    [s.State.Ready.User] of the bot, the guilds of the state and the field
    [GuildID] of its channels, [OWNER], [COLLECTIONS] and [AIRHORN] as
    [main] has loaded them, the client [rcli], the text
    [displayBotStats] formats from the figures of the runtime, and the
    Unicode tables behind [strings.ToLower]. *)
Record Bot : Type := mkBot {
  discord_session : Session;
  Ready_User_ID : string;
  Ready_User_Username : string;
  State_Guild : gmap string Guild;
  Channel_GuildID : Channel -> string;
  OWNER : string;
  COLLECTIONS : list SoundCollection;
  the_AIRHORN : SoundCollection;
  rcli : option Redis;
  BotStats : string;
  unicode_ToLower : string -> string
}.

(** What a handler does to the outside, in order: an effect of the
    playback layer, a message sent to a channel, a join with the flags
    [mute] and [deaf], and the goroutines it starts. *)
Inductive action : Type :=
| Act (e : event)
| ActSend (cid msg : string)                    (* ChannelMessageSend(cid, msg) *)
| ActJoin (gid cid : string) (mute deaf : bool) (* discord.ChannelVoiceJoin *)
| ActGo_enqueuePlay (user : User) (guild : Guild)
    (coll : SoundCollection) (sound : option Sound)
                                                (* go enqueuePlay(...) *)
| ActGo_calculateAirhornsPerSecond (cid : string).
                                                (* go calculateAirhornsPerSecond(cid) *)

(** Calls of the handlers. *)
Definition Handler (A : Type) : Type := world -> list action * world * outcome A.

Definition hret {A} (a : A) : Handler A := fun w => ([], w, Ret a).

Definition hbind {A B} (m : Handler A) (k : A -> Handler B) : Handler B := fun w =>
  match m w with
  | (tr, w1, Ret a) =>
      match k a w1 with (tr2, w2, r) => (tr ++ tr2, w2, r) end
  | (tr, w1, Panic msg) => (tr, w1, Panic msg)
  | (tr, w1, Diverged) => (tr, w1, Diverged)
  end.

Notation "'let+' x ':=' m 'in' k" := (hbind m (fun x => k))
  (at level 10, x name, m at level 100, k at level 200, only parsing).
Notation "m '>>>' k" := (hbind m (fun _ => k))
  (at level 100, k at level 200, right associativity, only parsing).

Definition hemit (a : action) : Handler unit := fun w => ([a], w, Ret tt).
Definition hpanic {A} (msg : string) : Handler A := fun w => ([], w, Panic msg).
Definition hlift {A} (o : outcome A) : Handler A := fun w => ([], w, o).

(** A call of the playback layer made by a handler. *)
Definition from_run {A} (m : M A) : Handler A := fun w =>
  match m w with (tr, w', r) => (map Act tr, w', r) end.

Definition nil_dereference : string := "invalid memory address or nil pointer dereference".
Definition index_out_of_range : string := "index out of range".

(** [scontains]. *)
Fixpoint scontains (key : string) (options : list string) : bool :=
  match options with
  | [] => false
  | item :: rest => if decide (item = key) then true else scontains key rest
  end.

(** [utilGetMentioned]: the first mention that is not the bot. *)
Fixpoint first_other (self : string) (mentions : list User) : option User :=
  match mentions with
  | [] => None
  | mention :: rest =>
      if decide (User_ID mention <> self) then Some mention else first_other self rest
  end.

Definition utilGetMentioned (bot : Bot) (m : Message) : option User :=
  first_other (Ready_User_ID bot) (Mentions m).

(** [displayBotStats]: one message, the table of the runtime's figures. *)
Definition displayBotStats (bot : Bot) (cid : string) : Handler unit :=
  hemit (ActSend cid (BotStats bot)).

(** [displayUserStats]. *)
Definition displayUserStats (bot : Bot) (cid uid : string) : Handler unit :=
  match rcli bot with
  | None => hpanic nil_dereference
  | Some r =>
      match redis_Keys r ("airhorn:*:user:" +:+ uid +:+ ":sound:*") with
      | None => hret tt
      | Some keys =>
          let totalAirhorns := utilSumRedisKeys r keys in
          hemit (ActSend cid ("Total Airhorns: " +:+ format_int totalAirhorns))
      end
  end.

(** [displayServerStats]. *)
Definition displayServerStats (bot : Bot) (cid sid : string) : Handler unit :=
  match rcli bot with
  | None => hpanic nil_dereference
  | Some r =>
      match redis_Keys r ("airhorn:*:guild:" +:+ sid +:+ ":sound:*") with
      | None => hret tt
      | Some keys =>
          let totalAirhorns := utilSumRedisKeys r keys in
          hemit (ActSend cid ("Total Airhorns: " +:+ format_int totalAirhorns))
      end
  end.

(** [discord.ChannelVoiceJoin(gid, cid, true, true)] of [airhornBomb]. *)
Definition ChannelVoiceJoin_deaf (discord : Session) (gid cid : string)
  : Handler (VoiceConnection + error) := fun w =>
  let n := joins w in
  ([ActJoin gid cid true true], {| queues := queues w; joins := S n |},
   Ret (if join_ok discord n gid cid
        then inl {| vc_id := n; vc_GuildID := gid; vc_ChannelID := cid |}
        else inr ErrVoiceJoin)).

(** The loop of [airhornBomb]: [n] more rounds of
    [AIRHORN.Random().Play(vc)], the draws taken from [srcs] at [i]. *)
Fixpoint bomb_rounds (airhorn : SoundCollection) (srcs : nat -> Z)
    (vc : VoiceConnection) (i n : nat) : Handler unit :=
  match n with
  | O => hret tt
  | S n =>
      let+ sound := hlift (Random (srcs i) airhorn) in
      from_run (Sound_Play sound vc) >>>
      bomb_rounds airhorn srcs vc (S i) n
  end.

(** [airhornBomb].  [user] is [None] for a nil pointer; [srcs] feeds the
    calls of [Random], the first two being those of [createPlay]. *)
Definition airhornBomb (bot : Bot) (srcs : nat -> Z) (cid : string)
    (guild : Guild) (user : option User) (cs : string) : Handler unit :=
  let count := Atoi cs in
  let+ trumpets := hlift (Repeat ":trumpet:" count) in
  hemit (ActSend cid (":ok_hand:" +:+ trumpets)) >>>
  if 100 <? count then hret tt
  else
    match user with
    | None => hpanic nil_dereference
    | Some user =>
        let+ play :=
          from_run (createPlay (discord_session bot) (srcs 0%nat) (srcs 1%nat)
                      user guild (the_AIRHORN bot) None) in
        match play with
        | None => hpanic nil_dereference
        | Some play =>
            let+ r := ChannelVoiceJoin_deaf (discord_session bot) (GuildID play) (ChannelID play) in
            match r with
            | inr _ => hret tt
            | inl vc =>
                bomb_rounds (the_AIRHORN bot) srcs vc 2 (Z.to_nat count) >>>
                hemit (Act (EvDisconnect (vc_id vc)))
            end
        end
    end.

(** [handleBotControlMessages]. *)
Definition handleBotControlMessages (bot : Bot) (srcs : nat -> Z) (m : Message)
    (parts : list string) (g : Guild) : Handler unit :=
  match parts !! 1%nat with
  | None => hpanic index_out_of_range
  | Some word =>
      if scontains word ["status"%string] then displayBotStats bot (msg_ChannelID m)
      else if scontains word ["stats"%string] then
        if (2 <=? length (Mentions m))%nat then
          match utilGetMentioned bot m with
          | None => hpanic nil_dereference
          | Some user => displayUserStats bot (msg_ChannelID m) (User_ID user)
          end
        else if (3 <=? length parts)%nat then
          match parts !! 2%nat with
          | None => hpanic index_out_of_range
          | Some uid => displayUserStats bot (msg_ChannelID m) uid
          end
        else displayServerStats bot (msg_ChannelID m) (Guild_ID g)
      else if scontains word ["bomb"%string] && (4 <=? length parts)%nat then
        match parts !! 3%nat with
        | None => hpanic index_out_of_range
        | Some cs => airhornBomb bot srcs (msg_ChannelID m) g (utilGetMentioned bot m) cs
        end
      else if scontains word ["aps"%string] then
        hemit (ActSend (msg_ChannelID m) ":ok_hand: give me a sec m8") >>>
        hemit (ActGo_calculateAirhornsPerSecond (msg_ChannelID m))
      else hret tt
  end.

(** *** The help texts *)

(** A line ["\t- name"] of a help text, and a text of several lines. *)
Definition help_item (name : string) : string := TAB +:+ "- " +:+ name.

Definition help_text (lines : list string) : string := Join lines LF.

(** The message of line 786. *)
Definition help_basics : string :=
  help_text
   ["```xl"; "Airhorn Basics";
    "The airhorn bot has a few different sound effects that start with !";
    help_item "airhorn"; help_item "anotha (or anothaone)"; help_item "cena (or johncena)";
    help_item "ethan (or ethanbradberry, eb, h3h3)"; help_item "stan (or stanislav)";
    help_item "bday (or birthday)"; help_item "roode"; help_item "revival"; help_item "styles (or aj)";
    help_item "overwatch (or owult)"; help_item "dummy"; help_item "tobi (or tobiwan)";
    help_item "jones (or alexjones)"; help_item "mummy";
    "For more commands use !help {and any of the above}"; "```"].

(** The message of line 789. *)
Definition help_airhorn : string :=
  help_text
   ["```xl"; "To do play any of these sounds do !airhorn {any of the below}";
    help_item "default"; help_item "reverb"; help_item "tripletap"; help_item "fourtap"; help_item "distant";
    help_item "echo"; help_item "clownfull"; help_item "clownshort"; help_item "clownspam";
    help_item "highfartlong"; help_item "highfartshort"; help_item "midshort"; help_item "truck"; "```"].

(** The message of line 791. *)
Definition help_styles : string :=
  help_text
   ["```xl"; "To do play any of these sounds do !styles (or !aj) {any of the below}";
    help_item "gay_community"; "```"].

(** The message of line 793. *)
Definition help_anotha : string :=
  help_text
   ["```xl";
    "To do play any of these sounds do !anotha (or !anothaone) {any of the below}";
    help_item "one"; help_item "one_classic"; help_item "one_echo"; "```"].

(** The message of line 795. *)
Definition help_stan : string :=
  help_text
   ["```xl";
    "To do play any of these sounds do !stan (or !stanislav) {any of the below}";
    help_item "herd"; help_item "moo"; help_item "x3"; "```"].

(** The message of line 797. *)
Definition help_bday : string :=
  help_text
   ["```xl";
    "To do play any of these sounds do !bday (or !birthday) {any of the below}";
    help_item "horn"; help_item "horn3"; help_item "sadhorn"; help_item "weakhorn"; "```"].

(** The message of line 799. *)
Definition help_roode : string :=
  help_text
   ["```xl"; "To do play any of these sounds do !roode {any of the below}";
    help_item "glorious"; help_item "defend"; help_item "victorious_full"; "```"].

(** The message of line 801. *)
Definition help_revival : string :=
  help_text
   ["```xl"; "To do play any of these sounds do !revival {any of the below}";
    help_item "we_go_hard"; help_item "say_yeah"; "```"].

(** The message of line 803. *)
Definition help_ethan : string :=
  help_text
   ["```xl";
    "To do play any of these sounds do !ethan (or eb, ethanbradberry, h3h3) {any of the below}";
    help_item "areyou_classic"; help_item "areyou_condensed"; help_item "areyou_crazy";
    help_item "areyou_ethan"; help_item "classic"; help_item "echo"; help_item "high"; help_item "slowandlown";
    help_item "cuts"; help_item "beat"; help_item "sodiepop"; "```"].

(** The message of line 805. *)
Definition help_johncena : string :=
  help_text
   ["```xl";
    "To do play any of these sounds do !cena (or !johncena) {any of the below}";
    help_item "airhorn"; help_item "echo"; help_item "full"; help_item "jc"; help_item "nameis"; help_item "spam";
    "```"].

(** The message of line 807. *)
Definition help_overwatch : string :=
  help_text
   ["```xl";
    "To do play any of these sounds do !overwatch (or !owult) {any of the below}";
    help_item "dva_enemy"; help_item "genji_enemy"; help_item "genji_friendly"; help_item "hanzo_enemy";
    help_item "hanzo_friendly"; help_item "junkrat_enemy"; help_item "junkrat_friendly";
    help_item "lucio_friendly"; help_item "lucio_enemy"; help_item "mccree_enemy";
    help_item "mccree_friendly"; help_item "mei_friendly"; help_item "mei_enemy"; help_item "pharah_enemy";
    help_item "reaper_friendly"; help_item "76_enemy"; help_item "symmetra_friendly"; help_item "torbjorn";
    help_item "tracer_enemy"; help_item "tracer_friendly"; help_item "widow_enemy";
    help_item "widow_friendly"; help_item "zarya_enemy"; help_item "zarya_enemy";
    help_item "zarya_friendly"; help_item "zenyatta_enemy"; help_item "dva_;)"; help_item "anyong";
    "Note: Some ultimate sounds are missing (and as such are not listed here), so this command won't always play a sound";
    "```"].

(** The message of line 809. *)
Definition help_dummy : string :=
  help_text
   ["```xl"; "To do play any of these sounds do !dummy {any of the below}";
    help_item "yeah"; "```"].

(** The message of line 811. *)
Definition help_tobi : string :=
  help_text
   ["```xl";
    "To do play any of these sounds do !tobi (or !tobiwan) {any of the below}";
    help_item "disaster"; "```"].

(** The message of line 813. *)
Definition help_jones : string :=
  help_text
   ["```xl";
    "To do play any of these sounds do !jones (or !alexjones) {any of the below}";
    help_item "charging_goblins"; help_item "in_bed_goblin"; help_item "kissing_goblins";
    help_item "kissing_goblins_full"; help_item "destroy_everything"; help_item "gang_of_mustaches";
    help_item "have_children"; help_item "human"; help_item "pepsi_taste_test"; help_item "sick_of_it";
    help_item "what_is_that_joke"; help_item "what_is_venezula"; "```"].

(** The message of line 815. *)
Definition help_mummy : string :=
  help_text
   ["```xl";
    "To do play any of these sounds do !mummy (or !alexjones) {any of the below}";
    help_item "a number between 1 and 8"; "```"].

(** The chain of comparisons of lines 788-815, in its order. *)
Definition help_topic (topic : string) : option string :=
  if bool_decide (topic = "airhorn") then Some help_airhorn
  else if bool_decide (topic = "styles") || bool_decide (topic = "aj") then Some help_styles
  else if bool_decide (topic = "anotha") || bool_decide (topic = "anothaone") then Some help_anotha
  else if bool_decide (topic = "stan") || bool_decide (topic = "stanislav") then Some help_stan
  else if bool_decide (topic = "bday") || bool_decide (topic = "birthday") then Some help_bday
  else if bool_decide (topic = "roode") then Some help_roode
  else if bool_decide (topic = "revival") then Some help_revival
  else if bool_decide (topic = "ethan") || bool_decide (topic = "eb") || bool_decide (topic = "ethanbradberry") || bool_decide (topic = "h3h3") then Some help_ethan
  else if bool_decide (topic = "johncena") || bool_decide (topic = "cena") then Some help_johncena
  else if bool_decide (topic = "overwatch") || bool_decide (topic = "owult") then Some help_overwatch
  else if bool_decide (topic = "dummy") then Some help_dummy
  else if bool_decide (topic = "tobi") || bool_decide (topic = "tobiwan") then Some help_tobi
  else if bool_decide (topic = "jones") || bool_decide (topic = "alexjones") then Some help_jones
  else if bool_decide (topic = "mummy") then Some help_mummy
  else None.

(** Lines 782-819 of [onMessageCreate], for a message whose lower-cased
    content starts with ["!help"]. *)
Definition onMessageCreate_help (bot : Bot) (m : Message) : Handler unit :=
  let messageLower := ToLower (unicode_ToLower bot) (Content m) in
  let helpCommand := Split messageLower " " in
  if bool_decide (messageLower = "!help") || (length helpCommand =? 1)%nat
  then hemit (ActSend (msg_ChannelID m) help_basics)
  else
    match helpCommand !! 1%nat with
    | None => hpanic index_out_of_range
    | Some topic =>
        match help_topic topic with
        | Some reply => hemit (ActSend (msg_ChannelID m) reply)
        | None => hret tt
        end
    end.

(** *** Commands *)

(** The loop of lines 824-829: whether a mention is the bot. *)
Fixpoint bot_mentioned (self : string) (mentions : list User) (mentioned : bool) : bool :=
  match mentions with
  | [] => mentioned
  | mention :: rest =>
      if bool_decide (User_ID mention = self) then true
      else bot_mentioned self rest false
  end.

(** The loop of lines 844-848: the last clip of the collection with the
    name asked for. *)
Fixpoint select_sound (name : string) (sounds : list Sound) (sound : option Sound)
  : option Sound :=
  match sounds with
  | [] => sound
  | s :: rest => select_sound name rest (if decide (name = Name s) then Some s else sound)
  end.

(** Lines 838-858: the first collection one of whose commands is the
    first word. *)
Fixpoint dispatch (author : User) (guild : Guild) (parts : list string)
    (collections : list SoundCollection) : Handler unit :=
  match collections with
  | [] => hret tt
  | coll :: rest =>
      match parts !! 0%nat with
      | None => hpanic index_out_of_range
      | Some command =>
          if scontains command (Commands coll) then
            if (1 <? length parts)%nat then
              match parts !! 1%nat with
              | None => hpanic index_out_of_range
              | Some name =>
                  match select_sound name (Sounds coll) None with
                  | None => hret tt
                  | Some sound => hemit (ActGo_enqueuePlay author guild coll (Some sound))
                  end
              end
            else hemit (ActGo_enqueuePlay author guild coll None)
          else dispatch author guild parts rest
      end
  end.

(** The words of a message: line 760 and 761. *)
Definition message_parts (bot : Bot) (m : Message) : list string :=
  let msg := Replace_1 (ContentReplaced m) (Ready_User_Username bot) "username" in
  Split (ToLower (unicode_ToLower bot) msg) " ".

(** The test of line 756: the message is none of the bot's business. *)
Definition ignored (m : Message) : bool :=
  match Content m with
  | EmptyString => true
  | String c _ => negb (bool_decide (c = "!"%char)) && (length (Mentions m) <? 1)%nat
  end.

(** [onMessageCreate]. *)
Definition onMessageCreate (bot : Bot) (srcs : nat -> Z) (m : Message) : Handler unit :=
  if ignored m then hret tt
  else
    let parts := message_parts bot m in
    match State_Channel (discord_session bot) !! msg_ChannelID m with
    | None => hemit (Act (EvLog "Failed to grab channel"))
    | Some channel =>
        match State_Guild bot !! Channel_GuildID bot channel with
        | None => hemit (Act (EvLog "Failed to grab guild"))
        | Some guild =>
            if HasPrefix (ToLower (unicode_ToLower bot) (Content m)) "!help"
            then onMessageCreate_help bot m
            else if (0 <? length (Mentions m))%nat
                    && bool_decide (User_ID (Author m) = OWNER bot)
                    && (0 <? length parts)%nat
            then
              if bot_mentioned (Ready_User_ID bot) (Mentions m) false
              then handleBotControlMessages bot srcs m parts guild
              else hret tt
            else dispatch (Author m) guild parts (COLLECTIONS bot)
        end
    end.

(** *** Guilds that appear *)

(** What [onGuildCreate] reads of [event.Guild]. *)
Record GuildCreate : Type := mkGuildCreate {
  gc_ID : string;
  gc_Unavailable : bool;
  gc_Channels : list Channel
}.

Definition greeting : string :=
  "**AIRHORN BOT READY FOR HORNING. TYPE `!AIRHORN` WHILE IN A VOICE CHANNEL TO ACTIVATE**".

(** The loop of [onGuildCreate]. *)
Fixpoint greet (gid : string) (channels : list Channel) : list action :=
  match channels with
  | [] => []
  | channel :: rest =>
      if decide (Channel_ID channel = gid) then [ActSend (Channel_ID channel) greeting]
      else greet gid rest
  end.

(** [onGuildCreate]. *)
Definition onGuildCreate (event : GuildCreate) : list action :=
  if negb (gc_Unavailable event) then [] else greet (gc_ID event) (gc_Channels event).

(** ** What serving a queue is expected to show *)




(** The user has no voice state in the guild, or the first one names a
    channel that the state of the session does not know. *)
Definition outside_voice (discord : Session) (user : User) (guild : Guild) : Prop :=
  Forall (fun vs => vs_UserID vs <> User_ID user) (VoiceStates guild) \/
  exists pre vs post,
    VoiceStates guild = pre ++ vs :: post /\
    Forall (fun v => vs_UserID v <> User_ID user) pre /\
    vs_UserID vs = User_ID user /\
    State_Channel discord !! vs_ChannelID vs = None.

(** ** How [Sound.Load] ends *)

(** What [Sound.Load] meets after the frames it could read, and how it
    ends there: [tail] is what the resource holds after these frames,
    [fl] tells whether the device fails.  At most one byte: the end of
    the resource, or the error of the device.  A length and less
    payload than it announces: the error of the read.  A negative
    length: [make] panics. *)
Inductive Load_end (fl : bool) : list byte -> outcome (option error) -> Prop :=
| end_clean tail :
    (length tail <= 1)%nat -> fl = false -> Load_end fl tail (Ret None)
| end_device tail :
    (length tail <= 1)%nat -> fl = true -> Load_end fl tail (Ret (Some ErrIO))
| end_payload n part :
    0 <= n < 2 ^ 15 -> (length part < Z.to_nat n)%nat ->
    Load_end fl (le16 n ++ part)
      (Ret (Some (if fl then ErrIO
                  else match part with [] => EOF | _ => ErrUnexpectedEOF end)))
| end_negative b0 b1 rest :
    int16 (LittleEndian_Uint16 [b0; b1]) < 0 ->
    Load_end fl (b0 :: b1 :: rest) (Panic "makeslice: len out of range").

(** ** Clips of weight 0 *)



(** ** What a handler is expected to show *)

(** An action other than the start of [enqueuePlay]. *)
Definition no_enqueue (a : action) : Prop :=
  match a with
  | ActGo_enqueuePlay _ _ _ _ => False
  | _ => True
  end.

(** The guild the state has for the channel of a message. *)
Definition message_guild (bot : Bot) (m : Message) : option Guild :=
  match State_Channel (discord_session bot) !! msg_ChannelID m with
  | Some channel => State_Guild bot !! Channel_GuildID bot channel
  | None => None
  end.

(** The message is for [handleBotControlMessages]: it comes from the
    owner and mentions the bot. *)
Definition control_message (bot : Bot) (m : Message) : Prop :=
  User_ID (Author m) = OWNER bot /\
  Exists (fun mention => User_ID mention = Ready_User_ID bot) (Mentions m).

(** One play of the clip [s] on the connection [vc], as [Sound.Play]
    shows it. *)
Definition clip_events (vc : nat) (s : Sound) : list event :=
  EvSpeaking vc true :: map (EvOpusSend vc) (buffer s) ++ [EvSpeaking vc false].

(** The message [airhornBomb] sends first. *)
Definition bomb_message (count : Z) : string :=
  ":ok_hand:" +:+ repeat_string (Z.to_nat count) ":trumpet:".

(** ** Sample messages *)

(** A bot named Airhorn with the collections [AIRHORN] and [KHALED],
    owned by the user [owner], in the guild [g1]. *)
Definition sample_bot : Bot :=
  {| discord_session := live_session;
     Ready_User_ID := "bot"; Ready_User_Username := "Airhorn";
     State_Guild := {[ "g1"%string := guild_g1 ]};
     Channel_GuildID := fun _ => "g1"%string;
     OWNER := "owner";
     COLLECTIONS := [AIRHORN; KHALED];
     the_AIRHORN := AIRHORN;
     rcli := None; BotStats := EmptyString;
     unicode_ToLower := fun s => s |}.

(** A message without mentions in the channel [c1]. *)
Definition chat (author content : string) : Message :=
  {| msg_ID := "m1"; Content := content; ContentReplaced := content;
     msg_ChannelID := "c1"; Author := mkUser author; Mentions := [] |}.

(** A message of the owner that mentions the bot. *)
Definition mention (content replaced : string) : Message :=
  {| msg_ID := "m2"; Content := content; ContentReplaced := replaced;
     msg_ChannelID := "c1"; Author := mkUser "owner"; Mentions := [mkUser "bot"] |}.

(** The draws of a random source that always delivers [z]. *)
Definition always (z : Z) : nat -> Z := fun _ => z.

(** * Properties *)

(** ** Machine integers *)

Lemma GoInt_wrap_range z : GoInt.in_range (GoInt.wrap z).
Proof.
  unfold GoInt.in_range, GoInt.wrap, GoInt.min_int, GoInt.max_int.
  pose proof (Z.mod_pos_bound (z + 2 ^ 63) (2 ^ 64) ltac:(lia)). lia.
Qed.

Lemma GoInt_wrap_id z : GoInt.in_range z -> GoInt.wrap z = z.
Proof.
  unfold GoInt.in_range, GoInt.wrap, GoInt.min_int, GoInt.max_int. intros Hz.
  rewrite Z.mod_small by lia. lia.
Qed.

Lemma GoInt_add_0_r z : GoInt.in_range z -> GoInt.add z 0 = z.
Proof. intros Hz. unfold GoInt.add. rewrite Z.add_0_r. by apply GoInt_wrap_id. Qed.

Lemma GoInt_sub_0_r z : GoInt.in_range z -> GoInt.sub z 0 = z.
Proof. intros Hz. unfold GoInt.sub. rewrite Z.sub_0_r. by apply GoInt_wrap_id. Qed.

(** ** Weighted selection *)

Lemma cumFrom_cons i x l : cumFrom i (x :: l) = cumFrom (GoInt.add i (Weight x)) l.
Proof. reflexivity. Qed.

Lemma cumFrom_range i l : GoInt.in_range i -> GoInt.in_range (cumFrom i l).
Proof.
  revert i. induction l as [|x l IH]; intros i Hi; [done|].
  rewrite cumFrom_cons. apply IH, GoInt_wrap_range.
Qed.

Lemma cumWeight_range l : GoInt.in_range (cumWeight l).
Proof. apply (cumFrom_range 0). unfold GoInt.in_range, GoInt.min_int, GoInt.max_int. lia. Qed.

(** Without overflow the running sum is the mathematical one. *)
Lemma totalWeight_nil : totalWeight [] = 0.
Proof. reflexivity. Qed.

Lemma totalWeight_cons x l : totalWeight (x :: l) = Weight x + totalWeight l.
Proof. reflexivity. Qed.

Lemma totalWeight_nonneg l :
  Forall (fun x => 0 <= Weight x) l -> 0 <= totalWeight l.
Proof.
  induction 1 as [|x l Hx _ IH]; [by rewrite totalWeight_nil|].
  rewrite totalWeight_cons. lia.
Qed.

Lemma cumFrom_total i l :
  Forall (fun x => 0 <= Weight x) l -> 0 <= i ->
  i + totalWeight l <= GoInt.max_int ->
  cumFrom i l = i + totalWeight l.
Proof.
  intros Hpos. revert i.
  induction Hpos as [|x l Hx Hl IH]; intros i Hi Hmax.
  - rewrite totalWeight_nil. unfold cumFrom. simpl. lia.
  - pose proof (totalWeight_nonneg l Hl) as Hnn.
    rewrite cumFrom_cons. rewrite totalWeight_cons in *. unfold GoInt.add.
    rewrite GoInt_wrap_id
      by (unfold GoInt.in_range, GoInt.min_int, GoInt.max_int in *; lia).
    rewrite IH; lia.
Qed.

(** The walk finds nothing exactly when no cumulative weight exceeds the draw. *)
Lemma walk_None number i l :
  walk number i l = None -> l = [] \/ cumFrom i l <= number.
Proof.
  revert i. induction l as [|x l IH]; intros i; simpl; [by left|].
  destruct (Z.ltb_spec number (GoInt.add i (Weight x))) as [Hlt|Hge]; [done|].
  intros Hw. right. rewrite cumFrom_cons.
  destruct (IH _ Hw) as [->|Hle]; [|done]. by unfold cumFrom.
Qed.

Lemma walk_Some number i l sound :
  walk number i l = Some sound ->
  exists pre post,
    l = pre ++ sound :: post /\
    number < cumFrom i (pre ++ [sound]) /\
    forall j, (j < length pre)%nat -> cumFrom i (take (S j) pre) <= number.
Proof.
  revert i. induction l as [|x l IH]; intros i; simpl; [done|].
  destruct (Z.ltb_spec number (GoInt.add i (Weight x))) as [Hlt|Hge].
  - intros [= ->]. exists [], l. split; [done|]. split; [done|].
    simpl. intros j Hj. lia.
  - intros Hw. destruct (IH _ Hw) as (pre & post & -> & Hlt & Hpre).
    exists (x :: pre), post. split; [done|]. split; [done|].
    intros [|j] Hj; simpl in *.
    + rewrite take_0. done.
    + rewrite cumFrom_cons. apply Hpre. lia.
Qed.

Lemma walk_head number i x l :
  number < GoInt.add i (Weight x) -> walk number i (x :: l) = Some x.
Proof. intros H. simpl. by rewrite (proj2 (Z.ltb_lt _ _) H). Qed.

(** Skipping a prefix all of whose cumulative weights stay at or below the draw. *)
Lemma walk_skip number i pre l :
  (forall j, (j < length pre)%nat -> cumFrom i (take (S j) pre) <= number) ->
  walk number i (pre ++ l) = walk number (cumFrom i pre) l.
Proof.
  revert i. induction pre as [|x pre IH]; intros i Hpre; [done|].
  simpl. pose proof (Hpre 0%nat ltac:(simpl; lia)) as H0.
  simpl in H0. rewrite take_0 in H0. unfold cumFrom in H0; simpl in H0.
  rewrite (proj2 (Z.ltb_ge _ _) H0). rewrite cumFrom_cons. apply IH.
  intros j Hj. specialize (Hpre (S j) ltac:(simpl; lia)). done.
Qed.

Lemma totalWeight_app l1 l2 : totalWeight (l1 ++ l2) = totalWeight l1 + totalWeight l2.
Proof.
  induction l1 as [|x l1 IH]; [by rewrite totalWeight_nil|].
  rewrite <- app_comm_cons, !totalWeight_cons, IH. lia.
Qed.

Lemma totalWeight_take_le l k :
  Forall (fun x => 0 <= Weight x) l -> totalWeight (take k l) <= totalWeight l.
Proof.
  intros Hl. rewrite <- (take_drop k l) at 2. rewrite totalWeight_app.
  pose proof (totalWeight_nonneg (drop k l) (Forall_drop _ _ _ Hl)). lia.
Qed.

Lemma Forall_pos_nonneg (l : list Sound) :
  Forall (fun x => 0 < Weight x) l -> Forall (fun x => 0 <= Weight x) l.
Proof. intros H. eapply Forall_impl; [exact H|]. intros x Hx. simpl in Hx. lia. Qed.


Lemma Intn_range src n r : Intn src n = Ret r -> 0 <= r < n.
Proof.
  unfold Intn. destruct (Z.leb_spec n 0); [done|]. intros [= <-].
  apply Z.mod_pos_bound. lia.
Qed.

Lemma randomRange_pos src R :
  0 < R -> R <= GoInt.max_int -> randomRange src 0 R = Ret (src mod R).
Proof.
  intros Hpos Hmax. unfold randomRange.
  assert (Hin : GoInt.in_range R) by (unfold GoInt.in_range, GoInt.min_int, GoInt.max_int in *; lia).
  rewrite GoInt_sub_0_r by done. unfold Intn.
  destruct (Z.leb_spec R 0); [lia|]. simpl. f_equal. apply GoInt_add_0_r.
  pose proof (Z.mod_pos_bound src R Hpos).
  unfold GoInt.in_range, GoInt.min_int, GoInt.max_int in *; lia.
Qed.

Lemma randomRange_zero src : randomRange src 0 0 = Panic "invalid argument to Intn".
Proof. reflexivity. Qed.

(** With a draw below the final cumulative weight the walk returns a clip of the list. *)
Lemma walk_below number l :
  0 <= number -> number < cumWeight l ->
  exists sound, walk number 0 l = Some sound /\ sound ∈ l /\ first_exceeding number l sound.
Proof.
  intros Hnn Hlt. destruct (walk number 0 l) as [sound|] eqn:Hw.
  - exists sound. split; [done|].
    destruct (walk_Some _ _ _ _ Hw) as (pre & post & -> & H1 & H2).
    split; [set_solver|]. by exists pre, post.
  - destruct (walk_None _ _ _ Hw) as [->|Hle].
    + change (cumWeight []) with 0 in Hlt. lia.
    + change (cumFrom 0 l) with (cumWeight l) in Hle. lia.
Qed.

(** C10: with [0 < soundRange <= cumWeight Sounds], the sum of the
    weights as the code adds them up (the mathematical sum whenever that
    fits an [int], [cumWeight_total]; what [Load] leaves in [soundRange],
    [SoundCollection_Load_soundRange]), [Random] returns a clip of the
    collection whatever the random source delivers: every draw is below
    the last cumulative weight, and the [return nil] after the loop is
    not reached. *)
Theorem Random_never_nil (s : SoundCollection) (src : Z) :
  0 < soundRange s ->
  soundRange s <= cumWeight (Sounds s) ->
  exists sound, Random src s = Ret (Some sound) /\ sound ∈ Sounds s.
Proof.
  intros Hpos Hle. pose proof (cumWeight_range (Sounds s)) as [_ Hmax].
  unfold Random. rewrite randomRange_pos by lia. simpl.
  pose proof (Z.mod_pos_bound src (soundRange s) Hpos) as Hr.
  destruct (walk_below (src mod soundRange s) (Sounds s)) as (sound & Hw & Hin & _); [lia|lia|].
  exists sound. unfold Random_at. by rewrite Hw.
Qed.

Lemma Random_never_nil_witness :
  exists sound, Random 6450 AIRHORN = Ret (Some sound) /\ sound ∈ Sounds AIRHORN.
Proof. apply (Random_never_nil AIRHORN 6450); vm_compute; congruence. Defined.

Lemma walk_first number x l :
  0 <= number -> number < Weight x -> Weight x <= GoInt.max_int ->
  walk number 0 (x :: l) = Some x.
Proof.
  intros Hnn Hlt Hmax. apply walk_head. unfold GoInt.add.
  rewrite GoInt_wrap_id; [lia|].
  unfold GoInt.in_range, GoInt.min_int, GoInt.max_int in *. lia.
Qed.

Lemma walk_last pre x :
  Forall (fun y => 0 < Weight y) (pre ++ [x]) ->
  totalWeight (pre ++ [x]) <= GoInt.max_int ->
  walk (totalWeight (pre ++ [x]) - 1) 0 (pre ++ [x]) = Some x.
Proof.
  intros Hpos Hmax.
  pose proof (Forall_pos_nonneg _ Hpos) as Hnn.
  apply Forall_app in Hpos as [Hpre Hx]. apply Forall_app in Hnn as [Hnpre Hnx].
  rewrite Forall_singleton in Hx.
  rewrite totalWeight_app, totalWeight_cons, totalWeight_nil in *.
  pose proof (totalWeight_nonneg pre Hnpre) as Hp0.
  rewrite walk_skip.
  - rewrite cumFrom_total by (done || lia). apply walk_head.
    unfold GoInt.add. rewrite GoInt_wrap_id; [lia|].
    unfold GoInt.in_range, GoInt.min_int, GoInt.max_int in *. lia.
  - intros j Hj. pose proof (totalWeight_take_le pre (S j) Hnpre) as Hle.
    rewrite cumFrom_total; [lia|by apply Forall_take|lia|lia].
Qed.

Lemma walk_bounds (l : list Sound) :
  Forall (fun x => 0 < Weight x) l ->
  totalWeight l <= GoInt.max_int ->
  0 < totalWeight l ->
  is_Some (head l) /\
  walk 0 0 l = head l /\
  walk (totalWeight l - 1) 0 l = last l.
Proof.
  intros Hw Htot Hpos.
  induction l as [|x pre _] using rev_ind.
  { rewrite totalWeight_nil in Hpos. lia. }
  split; [by destruct pre|]. split; [|by rewrite last_snoc; apply walk_last].
  pose proof (Forall_pos_nonneg _ Hw) as Hnn.
  rewrite totalWeight_app, totalWeight_cons, totalWeight_nil in Htot.
  apply Forall_app in Hw as [Hl Hx]. rewrite Forall_singleton in Hx.
  apply Forall_app in Hnn as [Hnl _].
  pose proof (totalWeight_nonneg pre Hnl) as Hl0.
  destruct pre as [|y l']; cbn [app head].
  - apply walk_first; lia.
  - inversion Hl as [|? ? Hy Hl']; subst.
    rewrite totalWeight_cons in Htot, Hl0.
    pose proof (totalWeight_nonneg l' (Forall_pos_nonneg _ Hl')).
    apply walk_first; lia.
Qed.






(** A collection without clips, as a Go literal leaves it. *)
Lemma Random_zero_range_not_nil :
  Random 0 (mkSoundCollection "empty" [] [] None 0) <> Ret None.
Proof. vm_compute. congruence. Qed.

(** C9, as the code has it: with [soundRange = 0] the call
    [rand.Intn(0)] inside [randomRange] panics, so [Random] returns
    nothing at all, not even [nil]. *)
Theorem Random_zero_range_panics (s : SoundCollection) (src : Z) :
  soundRange s = 0 ->
  Random src s = Panic "invalid argument to Intn".
Proof. intros H0. unfold Random. by rewrite H0, randomRange_zero. Qed.

Lemma Random_zero_range_panics_witness :
  Random 7 (mkSoundCollection "empty" [] [createSound "a" 0 250] None 0)
  = Panic "invalid argument to Intn".
Proof. apply Random_zero_range_panics. reflexivity. Defined.

(** ** Reading a DCA resource *)

Lemma byte_to_Z_range b : 0 <= byte_to_Z b < 256.
Proof. unfold byte_to_Z. pose proof (Byte.to_N_bounded b). lia. Qed.

Lemma byte_to_of_Z z : 0 <= z < 256 -> byte_to_Z (byte_of_Z z) = z.
Proof.
  intros Hz. unfold byte_to_Z, byte_of_Z.
  destruct (Byte.of_N (Z.to_N z)) as [b|] eqn:Hb; simpl.
  - apply Byte.to_of_N in Hb. lia.
  - apply Byte.of_N_None_iff in Hb. lia.
Qed.

Lemma LittleEndian_Uint16_value b0 b1 :
  LittleEndian_Uint16 [b0; b1] = byte_to_Z b0 + 256 * byte_to_Z b1.
Proof.
  unfold LittleEndian_Uint16.
  pose proof (byte_to_Z_range b0) as H0. pose proof (byte_to_Z_range b1) as H1.
  rewrite Z.shiftl_mul_pow2 by lia.
  pose proof (Z.add_lor_land (byte_to_Z b0) (byte_to_Z b1 * 2 ^ 8)) as Hadd.
  assert (Hland : Z.land (byte_to_Z b0) (byte_to_Z b1 * 2 ^ 8) = 0).
  { apply Z.bits_inj'. intros n Hn. rewrite Z.land_spec, Z.bits_0.
    destruct (Z.lt_ge_cases n 8) as [Hlt|Hge].
    - rewrite (Z.mul_pow2_bits_low _ _ _ Hlt). apply andb_false_r.
    - destruct (Z.eq_dec (byte_to_Z b0) 0) as [->|Hne]; [by rewrite Z.bits_0|].
      rewrite (Z.bits_above_log2 (byte_to_Z b0) n); [done|lia|].
      apply Z.log2_lt_pow2; [lia|].
      apply Z.lt_le_trans with (2 ^ 8); [lia|]. apply Z.pow_le_mono_r; lia. }
  rewrite Hland in Hadd. lia.
Qed.

Lemma LittleEndian_Uint16_le16 n :
  0 <= n < 2 ^ 16 -> LittleEndian_Uint16 (le16 n) = n.
Proof.
  intros Hn. unfold le16. rewrite LittleEndian_Uint16_value.
  rewrite !byte_to_of_Z by (apply Z.mod_pos_bound; lia).
  rewrite (Z.mod_small (n / 256)) by (split; [apply Z.div_pos; lia|apply Z.div_lt_upper_bound; lia]).
  pose proof (Z.div_mod n 256 ltac:(lia)). lia.
Qed.

Lemma int16_small n : 0 <= n < 2 ^ 15 -> int16 n = n.
Proof. intros Hn. unfold int16. destruct (Z.ltb_spec n (2 ^ 15)); lia. Qed.

Lemma length_le16 n : length (le16 n) = 2%nat.
Proof. reflexivity. Qed.

(** Reading the length prefix written by [le16]. *)
Lemma binary_Read_int16_le16 n rest fl :
  0 <= n < 2 ^ 15 ->
  binary_Read_int16 (mkFile (le16 n ++ rest) fl) = (inl n, mkFile rest fl).
Proof.
  intros Hn. unfold binary_Read_int16, ReadFull. cbn [contents faulty].
  rewrite decide_False by lia.
  rewrite decide_True by (rewrite length_app, length_le16; lia).
  change (take 2 (le16 n ++ rest)) with (le16 n).
  change (drop 2 (le16 n ++ rest)) with rest.
  rewrite LittleEndian_Uint16_le16 by lia. by rewrite int16_small.
Qed.

(** Reading a payload that is there in full. *)
Lemma binary_Read_bytes_full frame rest fl :
  binary_Read_bytes (length frame) (mkFile (frame ++ rest) fl)
  = (inl frame, mkFile rest fl).
Proof.
  unfold binary_Read_bytes, ReadFull. cbn [contents faulty].
  destruct (decide (length frame = 0%nat)) as [H0|Hne].
  - apply nil_length_inv in H0. by subst.
  - rewrite decide_True by (rewrite length_app; lia).
    by rewrite take_app_length, drop_app_length.
Qed.

(** Reading a payload that is cut short. *)
Lemma binary_Read_bytes_short n part fl :
  (length part < n)%nat ->
  (binary_Read_bytes n (mkFile part fl)).1
  = inr (if fl then ErrIO else match part with [] => EOF | _ => ErrUnexpectedEOF end).
Proof.
  intros Hlt. unfold binary_Read_bytes, ReadFull. cbn [contents faulty].
  rewrite decide_False by lia. by rewrite decide_False by lia.
Qed.

Lemma length_encode_frame frame : length (encode_frame frame) = (2 + length frame)%nat.
Proof. unfold encode_frame. by rewrite length_app, length_le16. Qed.

(** One turn of the loop over a complete frame. *)
Lemma Load_frames_step fuel frame rest fl buf :
  short_frame frame ->
  Load_frames (S fuel) (mkFile (encode_frame frame ++ rest) fl) buf
  = Load_frames fuel (mkFile rest fl) (buf ++ [frame]).
Proof.
  intros Hshort. unfold short_frame in Hshort. cbn [Load_frames].
  unfold encode_frame. rewrite <- app_assoc.
  rewrite binary_Read_int16_le16 by lia.
  destruct (Z.ltb_spec (Z.of_nat (length frame)) 0); [lia|].
  rewrite Nat2Z.id. by rewrite binary_Read_bytes_full.
Qed.

(** The loop over complete frames followed by anything. *)
Lemma Load_frames_prefix frames : forall fuel rest fl buf,
  Forall short_frame frames ->
  Load_frames (length frames + fuel) (mkFile (encode_frames frames ++ rest) fl) buf
  = Load_frames fuel (mkFile rest fl) (buf ++ frames).
Proof.
  induction frames as [|frame frames IH]; intros fuel rest fl buf Hshort.
  - by rewrite app_nil_r.
  - inversion Hshort as [|? ? Hf Hfs]; subst.
    unfold encode_frames. cbn [map concat length Nat.add].
    rewrite <- app_assoc. rewrite Load_frames_step by done.
    fold (encode_frames frames). rewrite IH by done.
    by rewrite <- app_assoc.
Qed.

Lemma length_encode_frames frames :
  (length frames <= length (encode_frames frames))%nat.
Proof.
  induction frames as [|frame frames IH]; [done|].
  unfold encode_frames. cbn [map concat]. fold (encode_frames frames).
  rewrite length_app, length_encode_frame. simpl. lia.
Qed.

(** Extra budget does not change a result. *)
Lemma Load_frames_fuel fuel : forall file buf r extra,
  Load_frames fuel file buf = r -> r <> Diverged ->
  Load_frames (fuel + extra) file buf = r.
Proof.
  induction fuel as [|fuel IH]; intros file buf r extra Hr Hne; [by subst|].
  cbn [Load_frames Nat.add] in *.
  destruct (binary_Read_int16 file) as [[opuslen|err] file1]; [|done].
  destruct (opuslen <? 0); [done|].
  destruct (binary_Read_bytes (Z.to_nat opuslen) file1) as [[InBuf|err] file2]; [|done].
  by apply IH.
Qed.

Lemma ReadFull_length n file r file' :
  ReadFull n file = (r, file') ->
  (length (contents file') <= length (contents file))%nat /\
  (forall bs, r = inl bs -> (length (contents file') + n = length (contents file))%nat).
Proof.
  unfold ReadFull. destruct (decide (n = 0%nat)) as [->|Hn].
  - intros [= <- <-]. split; [lia|]. intros; lia.
  - destruct (decide (n <= length (contents file))%nat) as [Hle|Hgt];
      intros [= <- <-]; cbn.
    + rewrite length_drop. split; [lia|]. intros; lia.
    + split; [lia|]. by intros bs [=].
Qed.

(** The loop of [Sound.Load] ends: every turn that goes on has read the
    two bytes of a length. *)
Lemma Load_frames_terminates fuel : forall file buf,
  (length (contents file) < fuel)%nat -> Load_frames fuel file buf <> Diverged.
Proof.
  induction fuel as [|fuel IH]; intros file buf Hlen; [lia|].
  cbn [Load_frames]. unfold binary_Read_int16, binary_Read_bytes.
  destruct (ReadFull 2 file) as [[bs|err] file1] eqn:Hrd.
  - destruct (ReadFull_length _ _ _ _ Hrd) as [_ Hlen1].
    specialize (Hlen1 bs eq_refl).
    destruct (int16 (LittleEndian_Uint16 bs) <? 0); [done|].
    destruct (ReadFull _ file1) as [[InBuf|err] file2] eqn:Hrd2; [|done].
    destruct (ReadFull_length _ _ _ _ Hrd2) as [Hle2 _].
    apply IH. lia.
  - by destruct (decide _).
Qed.

(** [Sound.Load] returns or panics. *)
Lemma Sound_Load_terminates fs c s : Sound_Load fs c s <> Diverged.
Proof.
  unfold Sound_Load. destruct (fs !! dca_path c s) as [file|]; [|done].
  pose proof (Load_frames_terminates (S (length (contents file))) file (buffer s)
                ltac:(lia)) as Hne.
  by destruct (Load_frames _ file (buffer s)) as [r|msg|].
Qed.

(** The end of the resource, reached cleanly. *)
Lemma Load_frames_eof fuel buf :
  Load_frames (S fuel) (mkFile [] false) buf = Ret (buf, None).
Proof. reflexivity. Qed.

(** Loading a resource made of complete frames with short payloads: every
    frame is appended in order and no error is returned. *)
Lemma Load_frames_encode frames buf :
  Forall short_frame frames ->
  Load_frames (S (length (encode_frames frames)))
              (mkFile (encode_frames frames) false) buf
  = Ret (buf ++ frames, None).
Proof.
  intros Hshort.
  pose proof (length_encode_frames frames) as Hlen.
  replace (S (length (encode_frames frames)))
    with (length frames + 1 + (length (encode_frames frames) - length frames))%nat by lia.
  apply Load_frames_fuel; [|done].
  rewrite <- (app_nil_r (encode_frames frames)).
  rewrite Load_frames_prefix by done. apply Load_frames_eof.
Qed.

(** The stream of the specification's scenario. *)
Lemma Sound_Load_scenario :
  Sound_Load (one_file [x02; x00; xaa; xbb; x00; x00]) AIRHORN clip_default
  = Ret (set_buffer clip_default [[xaa; xbb]; []], None).
Proof. vm_compute. reflexivity. Qed.

(** A frame of 32768 bytes has the length prefix 00 80, which the code
    reads as the [int16] -32768: [make] panics, and no frame is loaded. *)
Lemma Sound_Load_long_frame_panics :
  Sound_Load (one_file ([x00; x80] ++ repeat x00 (Z.to_nat 32768))) AIRHORN clip_default
  = Panic "makeslice: len out of range" /\
  Sound_Load (one_file ([x00; x80] ++ repeat x00 (Z.to_nat 32768))) AIRHORN clip_default
  <> Ret (set_buffer clip_default [repeat x00 (Z.to_nat 32768)], None).
Proof.
  assert (Hpanic : Sound_Load (one_file ([x00; x80] ++ repeat x00 (Z.to_nat 32768)))
                     AIRHORN clip_default = Panic "makeslice: len out of range")
    by (vm_compute; reflexivity).
  split; [exact Hpanic|]. rewrite Hpanic. discriminate.
Qed.

(** C6, with the length prefix as the code reads it (a non-negative
    [int16], so payloads of at most 32767 bytes): the resource made of the
    frames [frames] loads without error and leaves them, in order, after
    the frames the clip already had;  the stream 02 00 AA BB 00 00 gives
    the two frames AA BB and the empty one. *)
Theorem Sound_Load_frames (fs : gmap string File) (c : SoundCollection) (s : Sound)
    (frames : list (list byte)) :
  Forall short_frame frames ->
  fs !! dca_path c s = Some (mkFile (encode_frames frames) false) ->
  Sound_Load fs c s = Ret (set_buffer s (buffer s ++ frames), None) /\
  Sound_Load (one_file [x02; x00; xaa; xbb; x00; x00]) AIRHORN clip_default
  = Ret (set_buffer clip_default [[xaa; xbb]; []], None).
Proof.
  intros Hshort Hfile. split; [|apply Sound_Load_scenario].
  unfold Sound_Load. rewrite Hfile. cbn [contents].
  by rewrite Load_frames_encode.
Qed.

Lemma Sound_Load_frames_witness :
  Sound_Load (one_file (encode_frames [[xaa; xbb]; []; [x01]])) AIRHORN clip_default
  = Ret (set_buffer clip_default [[xaa; xbb]; []; [x01]], None).
Proof.
  apply (Sound_Load_frames (one_file (encode_frames [[xaa; xbb]; []; [x01]]))
           AIRHORN clip_default [[xaa; xbb]; []; [x01]]).
  - repeat constructor.
  - reflexivity.
Defined.

(** The loop over complete frames followed by a tail that one more turn settles. *)
Lemma Load_frames_tail frames tail fl buf r :
  Forall short_frame frames ->
  Load_frames 1 (mkFile tail fl) (buf ++ frames) = r -> r <> Diverged ->
  Load_frames (S (length (encode_frames frames ++ tail)))
              (mkFile (encode_frames frames ++ tail) fl) buf = r.
Proof.
  intros Hshort Hr Hne.
  pose proof (length_encode_frames frames) as Hlen.
  replace (S (length (encode_frames frames ++ tail)))
    with (length frames + 1 + (length (encode_frames frames ++ tail) - length frames))%nat
    by (rewrite length_app; lia).
  apply Load_frames_fuel; [|done]. by rewrite Load_frames_prefix.
Qed.

(** A payload cut short ends the loop with the error of the read. *)
Lemma Load_frames_short_payload n part fl buf :
  0 <= n < 2 ^ 15 -> (length part < Z.to_nat n)%nat ->
  Load_frames 1 (mkFile (le16 n ++ part) fl) buf
  = Ret (buf, Some (if fl then ErrIO
                    else match part with [] => EOF | _ => ErrUnexpectedEOF end)).
Proof.
  intros Hn Hpart. cbn [Load_frames].
  rewrite binary_Read_int16_le16 by done.
  destruct (Z.ltb_spec n 0); [lia|].
  pose proof (binary_Read_bytes_short (Z.to_nat n) part fl Hpart) as Hrd.
  destruct (binary_Read_bytes (Z.to_nat n) (mkFile part fl)) as [[InBuf|err] file2];
    simpl in Hrd; [done|]. by injection Hrd as ->.
Qed.

(** A single byte where a length prefix should start: taken as the end. *)
Lemma Load_frames_short_prefix b buf :
  Load_frames 1 (mkFile [b] false) buf = Ret (buf, None).
Proof. reflexivity. Qed.

(** A one-byte resource loads without error, and a resource whose second
    payload is cut short returns an error but keeps the first frame. *)
Lemma Sound_Load_truncation_cases :
  Sound_Load (one_file [x01]) AIRHORN clip_default = Ret (clip_default, None) /\
  Sound_Load (one_file [x01; x00; xaa; x05; x00; xbb]) AIRHORN clip_default
  = Ret (set_buffer clip_default [[xaa]], Some ErrUnexpectedEOF).
Proof. split; vm_compute; reflexivity. Qed.

(** C7, as the code has it.  A missing resource and a payload cut short
    (declared length a non-negative [int16]) make [Load] return an error;
    a length prefix cut short, a single trailing byte, is taken as the end
    of the resource and returns no error.  In each case the clip keeps
    the frames read before ([frames]), so its frame sequence is empty
    only when it was empty and no complete frame came first; playing a
    clip without frames toggles the speaking state and sends nothing. *)
Theorem Sound_Load_failures (fs : gmap string File) (c : SoundCollection) (s : Sound)
    (frames : list (list byte)) :
  Forall short_frame frames ->
  (fs !! dca_path c s = None ->
   Sound_Load fs c s = Ret (s, Some ErrNotExist)) /\
  (forall n part fl,
     0 <= n < 2 ^ 15 -> (length part < Z.to_nat n)%nat ->
     fs !! dca_path c s = Some (mkFile (encode_frames frames ++ le16 n ++ part) fl) ->
     Sound_Load fs c s
     = Ret (set_buffer s (buffer s ++ frames),
            Some (if fl then ErrIO
                  else match part with [] => EOF | _ => ErrUnexpectedEOF end))) /\
  (forall b,
     fs !! dca_path c s = Some (mkFile (encode_frames frames ++ [b]) false) ->
     Sound_Load fs c s = Ret (set_buffer s (buffer s ++ frames), None)) /\
  (forall vc w,
     buffer s = [] ->
     Sound_Play (Some s) vc w
     = ([EvSpeaking (vc_id vc) true; EvSpeaking (vc_id vc) false], w, Ret tt)).
Proof.
  intros Hshort. repeat split.
  - intros Hnone. unfold Sound_Load. by rewrite Hnone.
  - intros n part fl Hn Hpart Hfile. unfold Sound_Load. rewrite Hfile. cbn [contents].
    by rewrite (Load_frames_tail frames (le16 n ++ part) fl (buffer s) _ Hshort
                 (Load_frames_short_payload n part fl _ Hn Hpart)).
  - intros b Hfile. unfold Sound_Load. rewrite Hfile. cbn [contents].
    by rewrite (Load_frames_tail frames [b] false (buffer s) _ Hshort
                 (Load_frames_short_prefix b _)).
  - intros vc w Hbuf. unfold Sound_Play, bind, emit, emits. by rewrite Hbuf.
Qed.

Lemma Sound_Load_failures_witness :
  Sound_Load (one_file (encode_frames [[xaa]] ++ le16 5 ++ [xbb])) AIRHORN clip_default
  = Ret (set_buffer clip_default [[xaa]], Some ErrUnexpectedEOF) /\
  Sound_Load (one_file (encode_frames [[xaa]] ++ [x05])) AIRHORN clip_default
  = Ret (set_buffer clip_default [[xaa]], None) /\
  Sound_Load ∅ AIRHORN clip_default = Ret (clip_default, Some ErrNotExist).
Proof.
  destruct (Sound_Load_failures
              (one_file (encode_frames [[xaa]] ++ le16 5 ++ [xbb]))
              AIRHORN clip_default [[xaa]]) as (_ & Hpay & _).
  { repeat constructor. }
  destruct (Sound_Load_failures
              (one_file (encode_frames [[xaa]] ++ [x05]))
              AIRHORN clip_default [[xaa]]) as (_ & _ & Hpre & _).
  { repeat constructor. }
  destruct (Sound_Load_failures ∅ AIRHORN clip_default []) as (Hmiss & _).
  { constructor. }
  split; [|split].
  - apply (Hpay 5 [xbb] false); [lia|simpl; lia|reflexivity].
  - apply (Hpre x05). reflexivity.
  - apply Hmiss. reflexivity.
Defined.

(** ** The playback driver *)

Lemma bind_run {A B} (m : M A) (k : A -> M B) w tr w1 a :
  m w = (tr, w1, Ret a) ->
  bind m k w = (let '(tr2, w2, r) := k a w1 in (tr ++ tr2, w2, r)).
Proof. intros Hm. unfold bind. rewrite Hm. by destruct (k a w1) as [[? ?] ?]. Qed.

Lemma perform_Some play s vc w :
  Play_Sound play = Some s ->
  perform play vc w = (play_events play s vc, w, Ret (move vc (ChannelID play))).
Proof.
  intros Hs. unfold perform, play_events, move, Sound_Play, ChangeChannel. rewrite Hs.
  destruct (decide (vc_ChannelID vc = ChannelID play));
    unfold bind, emit, emits, ret; cbn; by rewrite ?app_nil_r.
Qed.


Lemma move_ChannelID vc cid : vc_ChannelID (move vc cid) = cid.
Proof. unfold move. by destruct (decide _). Qed.

Lemma move_same vc cid : vc_ChannelID vc = cid -> move vc cid = vc.
Proof. intros H. unfold move. by rewrite decide_True. Qed.

(** A failed join ends the run at once: one attempt, the queue entry gone. *)
Lemma playSound_join_failed discord fuel play w :
  join_ok discord (joins w) (GuildID play) (ChannelID play) = false ->
  playSound discord (S fuel) play None w
  = ([EvLog "Playing sound"; EvJoin (GuildID play) (ChannelID play);
      EvLog "Failed to play sound"; EvDelete (GuildID play)],
     {| queues := delete (GuildID play) (queues w); joins := S (joins w) |},
     Ret (Some ErrVoiceJoin)).
Proof.
  intros Hjoin. cbn [playSound]. unfold bind, emit, acquire, bind, ChannelVoiceJoin.
  rewrite Hjoin. reflexivity.
Qed.

(** A submission for a guild without a queue entry records a queue of
    capacity 6 and starts a run with a join. *)
Lemma enqueue_idle discord fuel guild play w :
  queues w !! Guild_ID guild = None ->
  enqueue discord fuel guild play w
  = (let '(tr, w', r) :=
       playSound discord fuel play None
                 (with_queue (Guild_ID guild) (make_chan MAX_QUEUE_SIZE) w) in
     (tr, w', discard r)).
Proof.
  intros Hnone. unfold enqueue, bind, get_queues, set_queues, with_queue.
  rewrite Hnone. cbn.
  destruct (playSound _ _ _ _ _) as [[tr w'] [e|msg|]]; cbn; by rewrite ?app_nil_r.
Qed.















(** ** The guild queue manager *)

Lemma enqueue_room discord fuel guild play w ch :
  queues w !! Guild_ID guild = Some ch ->
  (length (items ch) < MAX_QUEUE_SIZE)%nat -> (length (items ch) < cap ch)%nat ->
  enqueue discord fuel guild play w
  = ([], with_queue (Guild_ID guild) (mkChan (cap ch) (items ch ++ [play])) w, Ret tt).
Proof.
  intros Hch Hlen Hcap. unfold enqueue, bind, get_queues. rewrite Hch.
  rewrite !decide_True by done. reflexivity.
Qed.

Lemma enqueue_full discord fuel guild play w ch :
  queues w !! Guild_ID guild = Some ch ->
  (MAX_QUEUE_SIZE <= length (items ch))%nat ->
  enqueue discord fuel guild play w = ([], w, Ret tt).
Proof.
  intros Hch Hlen. unfold enqueue, bind, get_queues. rewrite Hch.
  rewrite decide_False by lia. reflexivity.
Qed.

(** Submissions to an active guild fill its queue up to the capacity and
    are dropped, without a trace, beyond it. *)
Lemma submit_all_active discord fuel guild plays : forall w ch,
  queues w !! Guild_ID guild = Some ch ->
  cap ch = MAX_QUEUE_SIZE -> (length (items ch) <= MAX_QUEUE_SIZE)%nat ->
  exists w',
    submit_all discord fuel guild plays w = ([], w', Ret tt) /\
    queues w' = <[Guild_ID guild :=
                    mkChan MAX_QUEUE_SIZE (take MAX_QUEUE_SIZE (items ch ++ plays))]>
                (queues w) /\
    joins w' = joins w.
Proof.
  induction plays as [|play plays IH]; intros w ch Hch Hcap Hlen.
  - exists w. split; [done|]. split; [|done].
    rewrite app_nil_r, firstn_all2 by done. rewrite <- Hcap.
    destruct ch. by rewrite insert_id.
  - cbn [submit_all].
    destruct (decide (length (items ch) < MAX_QUEUE_SIZE)%nat) as [Hlt|Hge].
    + destruct (IH (with_queue (Guild_ID guild) (mkChan (cap ch) (items ch ++ [play])) w)
                   (mkChan (cap ch) (items ch ++ [play]))) as (w' & Hrun & Hq & Hj).
      { cbn. apply lookup_insert_eq. }
      { done. }
      { cbn. rewrite length_app. cbn. lia. }
      exists w'. split; [|split].
      * erewrite bind_run by (apply (enqueue_room _ _ _ _ _ ch); [done|done|lia]). by rewrite Hrun.
      * rewrite Hq. cbn. rewrite insert_insert_eq. by rewrite <- app_assoc.
      * by rewrite Hj.
    + destruct (IH w ch Hch Hcap Hlen) as (w' & Hrun & Hq & Hj).
      exists w'. split; [|split; [|done]].
      * erewrite bind_run by (apply (enqueue_full _ _ _ _ _ ch); [done|lia]). by rewrite Hrun.
      * rewrite Hq. do 2 f_equal.
        rewrite !take_app_le by lia. done.
Qed.

(** *** The shape of one call of [playSound] *)

Lemma drain_next f play vc w n next rest :
  queues w !! GuildID play = Some (mkChan n (next :: rest)) ->
  drain f play vc w
  = (let '(tr, w', r) := f next (Some vc) (with_queue (GuildID play) (mkChan n rest) w) in
     (tr, w', return_nil r)).
Proof.
  intros Hq. unfold drain, bind, get_queues, set_queues, with_queue, ret. rewrite Hq. cbn.
  destruct (f _ _ _) as [[tr w'] [e|msg|]]; cbn; by rewrite ?app_nil_r.
Qed.


Lemma playSound_supplied discord fuel play s vc w :
  Play_Sound play = Some s ->
  playSound discord (S fuel) play (Some vc) w
  = (let vc' := move vc (ChannelID play) in
     let head := EvLog "Playing sound" :: play_events play s vc in
     match Next play with
     | None =>
         let '(tr, w', r) := drain (playSound discord fuel) play vc' w in
         (head ++ tr, w', r)
     | Some next =>
         match playSound discord fuel next (Some vc') w with
         | (tr1, w1, Ret _) =>
             let '(tr, w', r) := drain (playSound discord fuel) play vc' w1 in
             (head ++ tr1 ++ tr, w', r)
         | (tr1, w1, Panic msg) => (head ++ tr1, w1, Panic msg)
         | (tr1, w1, Diverged) => (head ++ tr1, w1, Diverged)
         end
     end).
Proof.
  intros Hs. cbn [playSound]. unfold bind, emit, acquire, ret.
  rewrite (perform_Some _ _ _ _ Hs).
  destruct (Next play) as [next|].
  - destruct (playSound discord fuel next _ w) as [[tr1 w1] [e|msg|]]; cbn.
    + match goal with
      | |- context [drain ?f play ?v w1] => destruct (drain f play v w1) as [[tr w'] r]
      end.
      cbn. by rewrite ?app_nil_r, <- ?app_assoc.
    + by rewrite ?app_nil_r, <- ?app_assoc.
    + by rewrite ?app_nil_r, <- ?app_assoc.
  - match goal with
    | |- context [drain ?f play ?v w] => destruct (drain f play v w) as [[tr w'] r]
    end.
    cbn. by rewrite ?app_nil_r, <- ?app_assoc.
Qed.

Lemma acquire_fresh discord play w :
  join_ok discord (joins w) (GuildID play) (ChannelID play) = true ->
  acquire discord play None w
  = ([EvJoin (GuildID play) (ChannelID play)], after_join w,
     Ret (inl (joined (joins w) play))).
Proof. intros Hjoin. unfold acquire, bind, ChannelVoiceJoin, ret. by rewrite Hjoin. Qed.

Lemma playSound_fresh discord fuel play w tr w' r :
  join_ok discord (joins w) (GuildID play) (ChannelID play) = true ->
  playSound discord (S fuel) play (Some (joined (joins w) play)) (after_join w)
  = (EvLog "Playing sound" :: tr, w', r) ->
  playSound discord (S fuel) play None w
  = (EvLog "Playing sound" :: EvJoin (GuildID play) (ChannelID play) :: tr, w', r).
Proof.
  intros Hjoin. cbn [playSound].
  match goal with
  | |- context [bind (acquire discord play None) ?k] => set (K := k)
  end.
  unfold bind, emit. rewrite (acquire_fresh _ _ _ Hjoin).
  unfold acquire, ret.
  destruct (K (inl (joined (joins w) play)) (after_join w)) as [[tr0 w0] r0].
  cbn. intros [= <- <- <-]. reflexivity.
Qed.

(** ** The properties of the driver and of the queue manager *)


(** C8: when the join of a fresh run fails, [playSound] logs, deletes the
    queue entry of the guild, whatever it held, and returns the error
    after this single attempt; the next submission for the guild finds no
    entry and starts a run of its own. *)
Theorem playSound_join_failure discord fuel play w :
  join_ok discord (joins w) (GuildID play) (ChannelID play) = false ->
  let w' := {| queues := delete (GuildID play) (queues w); joins := S (joins w) |} in
  playSound discord (S fuel) play None w
  = ([EvLog "Playing sound"; EvJoin (GuildID play) (ChannelID play);
      EvLog "Failed to play sound"; EvDelete (GuildID play)],
     w', Ret (Some ErrVoiceJoin)) /\
  queues w' !! GuildID play = None /\
  (forall g, g <> GuildID play -> queues w' !! g = queues w !! g) /\
  (forall guild play2 fuel2,
     Guild_ID guild = GuildID play ->
     enqueue discord fuel2 guild play2 w'
     = (let '(tr, w2, r) :=
          playSound discord fuel2 play2 None
                    (with_queue (GuildID play) (make_chan MAX_QUEUE_SIZE) w') in
        (tr, w2, discard r))).
Proof.
  intros Hjoin w'. split; [by apply playSound_join_failed|].
  split; [apply lookup_delete_eq|]. split.
  - intros g Hg. cbn. by rewrite lookup_delete_ne.
  - intros guild play2 fuel2 Hguild. rewrite <- Hguild. apply enqueue_idle.
    rewrite Hguild. apply lookup_delete_eq.
Qed.

Lemma playSound_join_failure_witness :
  playSound deaf_session 1 (request "u1") None w_busy
  = ([EvLog "Playing sound"; EvJoin "g1" "c1";
      EvLog "Failed to play sound"; EvDelete "g1"],
     {| queues := delete "g1"%string (queues w_busy); joins := 1 |},
     Ret (Some ErrVoiceJoin)) /\
  delete "g1"%string (queues w_busy) !! "g1"%string = None.
Proof.
  destruct (playSound_join_failure deaf_session 0 (request "u1") w_busy) as (H1 & H2 & _).
  - reflexivity.
  - split; [exact H1|exact H2].
Defined.

(** C1: a submission for a guild without a queue entry records a queue
    of capacity 6 and hands the request to [playSound] (no session, the
    request not in the queue); with an entry holding fewer than 6
    requests it appends the request; with 6 it changes nothing and logs
    nothing; so of 7 requests submitted while the first run has not
    touched its queue, 6 are queued and the 7th is dropped, each call
    returning normally. *)
Theorem enqueue_policy discord fuel guild play w :
  (queues w !! Guild_ID guild = None ->
   let w1 := with_queue (Guild_ID guild) (make_chan MAX_QUEUE_SIZE) w in
   queues w1 !! Guild_ID guild = Some {| cap := 6; items := [] |} /\
   enqueue discord fuel guild play w
   = (let '(tr, w', r) := playSound discord fuel play None w1 in (tr, w', discard r))) /\
  (forall ch,
     queues w !! Guild_ID guild = Some ch ->
     cap ch = 6%nat -> (length (items ch) < 6)%nat ->
     enqueue discord fuel guild play w
     = ([], with_queue (Guild_ID guild) (mkChan 6 (items ch ++ [play])) w, Ret tt)) /\
  (forall ch,
     queues w !! Guild_ID guild = Some ch ->
     length (items ch) = 6%nat ->
     enqueue discord fuel guild play w = ([], w, Ret tt)) /\
  (forall plays,
     queues w !! Guild_ID guild = Some {| cap := 6; items := [] |} ->
     length plays = 7%nat ->
     exists w',
       submit_all discord fuel guild plays w = ([], w', Ret tt) /\
       queues w' !! Guild_ID guild = Some (mkChan 6 (take 6 plays)) /\
       length (take 6 plays) = 6%nat /\
       (forall g, g <> Guild_ID guild -> queues w' !! g = queues w !! g) /\
       joins w' = joins w).
Proof.
  repeat split.
  - apply lookup_insert_eq.
  - by apply enqueue_idle.
  - intros ch Hch Hcap Hlen. rewrite <- Hcap. apply enqueue_room; [done|done|lia].
  - intros ch Hch Hlen. apply (enqueue_full _ _ _ _ _ ch); [done|].
    rewrite Hlen. done.
  - intros plays Hch Hlen.
    destruct (submit_all_active discord fuel guild plays w _ Hch)
      as (w' & Hrun & Hq & Hj); [done|cbn; lia|].
    exists w'. split; [done|]. rewrite Hq. split; [apply lookup_insert_eq|].
    split; [rewrite length_take; lia|]. split; [|done].
    intros g Hg. by rewrite lookup_insert_ne.
Qed.

Lemma enqueue_policy_witness :
  exists w',
    submit_all live_session 0 guild_g1
      [request "a"; request "b"; request "c"; request "d";
       request "e"; request "f"; request "g"] w_active = ([], w', Ret tt) /\
    queues w' !! "g1"%string
    = Some (mkChan 6 [request "a"; request "b"; request "c"; request "d";
                      request "e"; request "f"]).
Proof.
  destruct (enqueue_policy live_session 0 guild_g1 (request "a") w_active)
    as (_ & _ & _ & H7).
  destruct (H7 [request "a"; request "b"; request "c"; request "d";
                request "e"; request "f"; request "g"])
    as (w' & Hrun & Hq & _); [reflexivity|reflexivity|].
  exists w'. split; [exact Hrun|exact Hq].
Defined.



(** A chained request on a connection: both clips first, the queue after. *)
Lemma playSound_chain_head discord fuel play next s1 s2 vc w :
  Play_Sound play = Some s1 -> Next play = Some next ->
  Play_Sound next = Some s2 -> Next next = None ->
  exists tr1 w1 r1,
    drain (playSound discord fuel) next
          (move (move vc (ChannelID play)) (ChannelID next)) w = (tr1, w1, r1) /\
    exists tr w' r,
      playSound discord (S (S fuel)) play (Some vc) w
      = (chain_events play next s1 s2 vc ++ tr1 ++ tr, w', r).
Proof.
  intros Hs1 Hnext Hs2 Hlast.
  destruct (drain (playSound discord fuel) next
              (move (move vc (ChannelID play)) (ChannelID next)) w)
    as [[tr1 w1] r1] eqn:Hdrain.
  exists tr1, w1, r1. split; [done|].
  rewrite (playSound_supplied _ _ _ _ _ _ Hs1), Hnext. cbn zeta.
  rewrite (playSound_supplied _ _ _ _ _ _ Hs2), Hlast. cbn zeta.
  rewrite Hdrain. unfold chain_events.
  destruct r1 as [e|msg|].
  - match goal with
    | |- context [drain ?f play ?v w1] => destruct (drain f play v w1) as [[tr w'] r]
    end.
    exists tr, w', r. cbn. by rewrite <- !app_assoc.
  - exists [], w1, (Panic msg). cbn. by rewrite <- !app_assoc, app_nil_r.
  - exists [], w1, Diverged. cbn. by rewrite <- !app_assoc, app_nil_r.
Qed.

(** C4: for a collection chained with [target] and a user found in a
    voice channel, [createPlay] returns a request whose follow-up has the
    same guild, channel, user and [Forced] flag, no follow-up of its own,
    and the clip that [target.Random()] returned, whether the first clip
    was named ([sound] given) or drawn.  Run on a connection, or on the
    one a successful join yields, the request shows its two plays one
    right after the other on that connection; a request waiting in the
    queue is played only after them. *)
Theorem createPlay_chain discord src1 src2 user guild coll sound
    target channel first second w :
  ChainWith coll = Some target ->
  getCurrentVoiceChannel discord user guild = Some channel ->
  match sound with
  | Some s => first = Some s
  | None => Random src1 coll = Ret first
  end ->
  Random src2 target = Ret second ->
  let next := follow_up user guild channel sound second in
  let play := chained user guild channel sound first second in
  createPlay discord src1 src2 user guild coll sound w = ([], w, Ret (Some play)) /\
  Next play = Some next /\ Next next = None /\
  GuildID next = GuildID play /\ ChannelID next = ChannelID play /\
  UserID next = UserID play /\ Forced next = Forced play /\
  Play_Sound next = second /\
  forall s1 s2 fuel (w0 : world),
    first = Some s1 -> second = Some s2 ->
    (forall vc,
       exists tr w' r,
         playSound discord (S (S fuel)) play (Some vc) w0
         = (chain_events play next s1 s2 vc ++ tr, w', r)) /\
    (join_ok discord (joins w0) (GuildID play) (ChannelID play) = true ->
       exists tr w' r,
         playSound discord (S (S fuel)) play None w0
         = (EvLog "Playing sound" :: EvJoin (GuildID play) (ChannelID play) ::
            tl (chain_events play next s1 s2 (joined (joins w0) play)) ++ tr, w', r)) /\
    (forall vc n queued rest sq,
       queues w0 !! GuildID play = Some (mkChan n (queued :: rest)) ->
       Play_Sound queued = Some sq ->
       exists tr w' r,
         playSound discord (S (S (S fuel))) play (Some vc) w0
         = (chain_events play next s1 s2 vc ++
            EvLog "Playing sound" ::
            play_events queued sq (move vc (ChannelID play)) ++ tr, w', r)).
Proof.
  intros Hchain Hchan Hfirst Hsecond next play.
  split.
  { unfold createPlay. rewrite Hchan, Hchain.
    destruct sound as [s|].
    - subst first. unfold bind, lift, ret. rewrite Hsecond. reflexivity.
    - unfold bind, lift, ret. rewrite Hfirst, Hsecond. reflexivity. }
  repeat (split; [reflexivity|]).
  intros s1 s2 fuel w0 -> ->.
  assert (Hsame : forall vc, move (move vc (ChannelID play)) (ChannelID next)
                             = move vc (ChannelID play))
    by (intros vc; apply move_same, move_ChannelID).
  split; [|split].
  - intros vc.
    destruct (playSound_chain_head discord fuel play next s1 s2 vc w0)
      as (tr1 & w1 & r1 & _ & tr & w' & r & Hrun); [done..|].
    exists (tr1 ++ tr), w', r. exact Hrun.
  - intros Hjoin.
    destruct (playSound_chain_head discord fuel play next s1 s2
                (joined (joins w0) play) (after_join w0))
      as (tr1 & w1 & r1 & _ & tr & w' & r & Hrun); [done..|].
    exists (tr1 ++ tr), w', r.
    apply (playSound_fresh _ _ _ _ _ _ _ Hjoin).
    rewrite Hrun. unfold chain_events. cbn [tl]. by rewrite <- app_comm_cons.
  - intros vc n queued rest sq Hq Hsq.
    destruct (playSound_chain_head discord (S fuel) play next s1 s2 vc w0)
      as (tr1 & w1 & r1 & Hdrain & tr & w' & r & Hrun); [done..|].
    rewrite Hsame in Hdrain.
    rewrite (drain_next _ _ _ _ _ _ _ (Hq : queues w0 !! GuildID next = _)) in Hdrain.
    rewrite (playSound_supplied _ _ _ _ _ _ Hsq) in Hdrain. cbn zeta in Hdrain.
    rewrite Hrun. clear Hrun.
    assert (Hhead : exists t,
               tr1 = EvLog "Playing sound" ::
                     play_events queued sq (move vc (ChannelID play)) ++ t).
    { destruct (Next queued) as [nq|].
      - destruct (playSound discord fuel nq _ _) as [[tq wq] [e|msg|]].
        + destruct (drain _ queued _ wq) as [[td wd] rd].
          injection Hdrain as <- <- <-. by eexists.
        + injection Hdrain as <- <- <-. by eexists.
        + injection Hdrain as <- <- <-. by eexists.
      - destruct (drain _ queued _ _) as [[td wd] rd].
        injection Hdrain as <- <- <-. by eexists. }
    destruct Hhead as [t ->]. exists (t ++ tr), w', r.
    by rewrite <- app_comm_cons, <- app_assoc.
Qed.

Lemma createPlay_chain_witness :
  createPlay live_session 0 2000 user_u1 guild_g1 KHALED None w_idle
  = ([], w_idle, Ret (Some chained_request)) /\
  exists tr w' r,
    playSound live_session 3 chained_request (Some vc_g1) w_busy
    = ([EvLog "Playing sound"; EvStats chained_request; EvSleep 32;
        EvSpeaking 0 true; EvSpeaking 0 false;
        EvLog "Playing sound";
        EvStats (follow_up user_u1 guild_g1 (mkChannel "c1") None (Some clip_spam));
        EvSleep 32; EvSpeaking 0 true; EvSpeaking 0 false;
        EvLog "Playing sound"; EvStats (request "u2"); EvSleep 32;
        EvSpeaking 0 true; EvSpeaking 0 false] ++ tr, w', r).
Proof.
  destruct (createPlay_chain live_session 0 2000 user_u1 guild_g1 KHALED None
              AIRHORN (mkChannel "c1") (Some clip_one) (Some clip_spam) w_idle)
    as (Hcreate & _ & _ & _ & _ & _ & _ & _ & Hrun);
    [reflexivity|reflexivity|reflexivity|reflexivity|].
  split; [exact Hcreate|].
  destruct (Hrun clip_one clip_spam 0%nat w_busy eq_refl eq_refl) as (_ & _ & Hqueued).
  destruct (Hqueued vc_g1 6%nat (request "u2") [request "u3"] clip_default)
    as (tr & w' & r & Hq); [reflexivity|reflexivity|].
  exists tr, w', r. exact Hq.
Defined.

(** The whole run of a chained request with nothing queued: the
    follow-up's call tears the run down, then the first call does so
    again with its own clip's delay. *)
Lemma chained_run_trace :
  playSound live_session 2 chained_request None w_active
  = ([EvLog "Playing sound"; EvJoin "g1" "c1"; EvStats chained_request; EvSleep 32;
      EvSpeaking 0 true; EvSpeaking 0 false;
      EvLog "Playing sound";
      EvStats (follow_up user_u1 guild_g1 (mkChannel "c1") None (Some clip_spam));
      EvSleep 32; EvSpeaking 0 true; EvSpeaking 0 false;
      EvSleep 0; EvDelete "g1"; EvDisconnect 0;
      EvSleep 250; EvDelete "g1"; EvDisconnect 0],
     {| queues := ∅; joins := 1 |}, Ret None).
Proof. vm_compute. reflexivity. Qed.

(** The whole of [enqueuePlay] on the idle guild, for the chained
    collection [KHALED]: the run of [chained_run_trace]. *)
Lemma enqueuePlay_chained_run :
  enqueuePlay live_session 2 0 2000 user_u1 guild_g1 KHALED None w_idle
  = ([EvLog "Playing sound"; EvJoin "g1" "c1"; EvStats chained_request; EvSleep 32;
      EvSpeaking 0 true; EvSpeaking 0 false;
      EvLog "Playing sound";
      EvStats (follow_up user_u1 guild_g1 (mkChannel "c1") None (Some clip_spam));
      EvSleep 32; EvSpeaking 0 true; EvSpeaking 0 false;
      EvSleep 0; EvDelete "g1"; EvDisconnect 0;
      EvSleep 250; EvDelete "g1"; EvDisconnect 0],
     {| queues := ∅; joins := 1 |}, Ret tt).
Proof. vm_compute. reflexivity. Qed.

(** A user who is in no voice channel: a warning, and nothing else. *)
Lemma enqueuePlay_no_voice_channel :
  enqueuePlay live_session 2 0 2000 (mkUser "u9") guild_g1 KHALED None w_idle
  = ([EvLog "Failed to find channel to play sound in"], w_idle, Ret tt).
Proof. vm_compute. reflexivity. Qed.

(** ** What [SoundCollection.Load] establishes *)

Lemma Sound_Load_Weight fs sc s s' err :
  Sound_Load fs sc s = Ret (s', err) -> Weight s' = Weight s.
Proof.
  unfold Sound_Load. destruct (fs !! dca_path sc s) as [file|]; [|by intros [= <- _]].
  destruct (Load_frames _ file (buffer s)) as [[buf e]| |]; cbn; [|done..].
  by intros [= <- _].
Qed.

Lemma Load_sounds_range fs sc : forall sounds range r sounds',
  Load_sounds fs sc range sounds = Ret (r, sounds') ->
  r = cumFrom range sounds /\ map Weight sounds' = map Weight sounds.
Proof.
  induction sounds as [|s sounds IH]; intros range r sounds'; cbn [Load_sounds].
  - by intros [= <- <-].
  - destruct (Sound_Load fs sc s) as [[s' err]| |] eqn:Hs; cbn; [|done..].
    destruct (Load_sounds fs sc _ sounds) as [[r0 rest]| |] eqn:Hrest; cbn; [|done..].
    intros [= <- <-]. destruct (IH _ _ _ Hrest) as [-> Hw].
    split; [by rewrite cumFrom_cons|].
    cbn. by rewrite Hw, (Sound_Load_Weight _ _ _ _ _ Hs).
Qed.

Lemma cumFrom_weights i l1 l2 :
  map Weight l1 = map Weight l2 -> cumFrom i l1 = cumFrom i l2.
Proof.
  revert i l2. induction l1 as [|x l1 IH]; intros i [|y l2] Hmap; try done.
  injection Hmap as Hx Hl. rewrite !cumFrom_cons, Hx. by apply IH.
Qed.

(** A collection loaded from its literal ([soundRange = 0]) has the
    cumulative weight of its clips as [soundRange]. *)
Lemma SoundCollection_Load_soundRange fs sc sc' :
  soundRange sc = 0 ->
  SoundCollection_Load fs sc = Ret sc' ->
  soundRange sc' = cumWeight (Sounds sc') /\
  map Weight (Sounds sc') = map Weight (Sounds sc).
Proof.
  intros H0. unfold SoundCollection_Load.
  destruct (Load_sounds fs sc (soundRange sc) (Sounds sc)) as [[r sounds']| |] eqn:Hl;
    cbn; [|done..].
  intros [= <-]. cbn. destruct (Load_sounds_range _ _ _ _ _ _ Hl) as [-> Hw].
  split; [|done]. rewrite H0. by apply cumFrom_weights.
Qed.

(** Loading the literal [AIRHORN], here without any resource on disk,
    gives the collection used above. *)
Lemma AIRHORN_loaded : SoundCollection_Load ∅ AIRHORN_literal = Ret AIRHORN.
Proof. vm_compute. reflexivity. Qed.

(** ** Goroutines *)

Lemma runs_of_cons g th ths :
  runs_of g (th :: ths) = (Nat.b2n (holds g th) + runs_of g ths)%nat.
Proof. unfold runs_of. cbn. by destruct (holds g th). Qed.

(** Replacing the stack of one goroutine. *)
Lemma runs_of_insert g ths : forall i old new,
  ths !! i = Some old ->
  (runs_of g (<[i := new]> ths) + Nat.b2n (holds g old)
   = runs_of g ths + Nat.b2n (holds g new))%nat.
Proof.
  induction ths as [|th ths IH]; intros [|i] old new Hi; try done.
  - injection Hi as ->. change (<[0%nat := new]> (old :: ths)) with (new :: ths).
    rewrite !runs_of_cons. lia.
  - change (<[S i := new]> (th :: ths)) with (th :: <[i := new]> ths).
    change ((th :: ths) !! S i) with (ths !! i) in Hi.
    rewrite !runs_of_cons. specialize (IH i old new Hi). lia.
Qed.

Lemma quiet_except_spec i ths j th :
  quiet_except i ths = true -> ths !! j = Some th -> j <> i -> critical th = false.
Proof.
  unfold quiet_except. rewrite forallb_forall. intros Hall Hj Hne.
  specialize (Hall (j, th)). cbn in Hall.
  destruct (critical th); [|done].
  assert (Hin : In (j, th) (imap pair ths)).
  { apply list_elem_of_In, list_elem_of_lookup. exists j.
    by rewrite list_lookup_imap, Hj. }
  specialize (Hall Hin). apply orb_true_iff in Hall as [Heq|Hc]; [|done].
  apply Nat.eqb_eq in Heq. done.
Qed.

Lemma observed_quiet q stack : critical stack = false -> observed q stack.
Proof. destruct stack as [|[[]|] ?]; done. Qed.

Lemma returning_not_holding g f below : returning f -> holds g (f :: below) = false.
Proof. destruct f as [[]|[] ? ?]; cbn; try done. intros _. apply andb_false_r. Qed.

Lemma returning_quiet f below : returning f -> critical (f :: below) = false.
Proof. by destruct f as [[]|[] ? ?]. Qed.

(** The stack left when the executing call returns. *)
Lemma stack_ok_pop f below :
  stack_ok (f :: below) ->
  stack_ok below /\ critical below = false /\ forall g, holds g below = false.
Proof.
  intros [Hplain Hret]. inversion Hplain as [|? ? _ Hbelow]; subst.
  destruct below as [|f' below']; [done|].
  inversion Hret as [|? ? Hf' Hbelow']; subst.
  split; [done|]. split; [by apply returning_quiet|].
  intros g. by apply returning_not_holding.
Qed.

(** The stack after the executing call called [playSound] for a plain
    request and has nothing left to do but to return. *)
Lemma stack_ok_push top f callee below :
  stack_ok (top :: below) -> plain (frame_play f) ->
  plain (frame_play callee) -> returning f ->
  stack_ok (callee :: f :: below).
Proof.
  intros [Hplain Hret] Hf Hcallee Hr. inversion Hplain; subst.
  split; [by repeat constructor|]. by constructor.
Qed.

(** The stack after the executing call moved to its next statement. *)
Lemma stack_ok_next top f below :
  stack_ok (top :: below) -> frame_play f = frame_play top ->
  stack_ok (f :: below).
Proof.
  intros [Hplain Hret] Hf. inversion Hplain; subst.
  split; [|done]. constructor; [by rewrite Hf|done].
Qed.

Section gate_steps.

Context (st : state) (i : nat) (old new : list frame).
Context (Hinv : gate_inv st).
Context (Hi : st_threads st !! i = Some old).
Context (Hquiet : quiet_except i (st_threads st) = true).

(** The other goroutines have seen nothing that a change of the map
    could contradict. *)
Lemma observed_insert q :
  observed q new -> Forall (observed q) (<[i := new]> (st_threads st)).
Proof.
  intros Hnew. apply Forall_lookup. intros j th Hj.
  destruct (decide (j = i)) as [->|Hne].
  - rewrite list_lookup_insert_eq in Hj by (by eapply lookup_lt_Some).
    by injection Hj as <-.
  - rewrite list_lookup_insert_ne in Hj by done.
    apply observed_quiet. by eapply quiet_except_spec.
Qed.

(** A step that neither starts nor ends a run and keeps the entries. *)
Lemma gate_inv_same q j h :
  (forall g, holds g new = holds g old) ->
  (forall g, is_Some (q !! g) <-> is_Some (st_queues st !! g)) ->
  (forall g ch, q !! g = Some ch -> Forall (fun p => GuildID p = g /\ plain p) (items ch)) ->
  stack_ok new -> observed q new ->
  gate_inv (mkState q j (<[i := new]> (st_threads st)) h).
Proof.
  intros Hholds Hdom Hq Hstack Hobs. destruct Hinv as [Hruns _ Hstacks _].
  split; cbn.
  - intros g. pose proof (runs_of_insert g _ _ _ new Hi) as Hcount.
    rewrite Hholds in Hcount. rewrite Hdom.
    replace (runs_of g (<[i := new]> (st_threads st))) with (runs_of g (st_threads st)) by lia.
    apply Hruns.
  - done.
  - by apply Forall_insert.
  - by apply observed_insert.
Qed.

(** The step that records the queue of [g0]: the run of [g0] begins. *)
Lemma gate_inv_acquire g0 ch j h :
  holds g0 old = false -> holds g0 new = true ->
  (forall g, g <> g0 -> holds g new = holds g old) ->
  st_queues st !! g0 = None ->
  Forall (fun p => GuildID p = g0 /\ plain p) (items ch) ->
  stack_ok new -> observed (<[g0 := ch]> (st_queues st)) new ->
  gate_inv (mkState (<[g0 := ch]> (st_queues st)) j (<[i := new]> (st_threads st)) h).
Proof.
  intros Hold Hnew Hother Hnone Hch Hstack Hobs.
  destruct Hinv as [Hruns Hqueue Hstacks _].
  split; cbn.
  - intros g. pose proof (runs_of_insert g _ _ _ new Hi) as Hcount.
    destruct (Hruns g) as [Hle Hiff].
    destruct (decide (g = g0)) as [->|Hne].
    + rewrite Hold, Hnew in Hcount. cbn in Hcount.
      rewrite lookup_insert_eq.
      assert (runs_of g0 (st_threads st) <> 1%nat).
      { intros H1. apply Hiff in H1. rewrite Hnone in H1. by destruct H1. }
      split; [lia|]. split; [lia|eauto].
    + rewrite (Hother g Hne) in Hcount. rewrite lookup_insert_ne by done.
      replace (runs_of g (<[i := new]> (st_threads st))) with (runs_of g (st_threads st)) by lia.
      done.
  - intros g ch'. destruct (decide (g = g0)) as [->|Hne].
    + rewrite lookup_insert_eq. by intros [= <-].
    + rewrite lookup_insert_ne by done. apply Hqueue.
  - by apply Forall_insert.
  - by apply observed_insert.
Qed.

(** The step that deletes the queue of [g0]: the run of [g0] can no
    longer use it. *)
Lemma gate_inv_release g0 j h :
  holds g0 old = true -> holds g0 new = false ->
  (forall g, g <> g0 -> holds g new = holds g old) ->
  stack_ok new -> observed (delete g0 (st_queues st)) new ->
  gate_inv (mkState (delete g0 (st_queues st)) j (<[i := new]> (st_threads st)) h).
Proof.
  intros Hold Hnew Hother Hstack Hobs.
  destruct Hinv as [Hruns Hqueue Hstacks _].
  split; cbn.
  - intros g. pose proof (runs_of_insert g _ _ _ new Hi) as Hcount.
    destruct (Hruns g) as [Hle Hiff].
    destruct (decide (g = g0)) as [->|Hne].
    + rewrite Hold, Hnew in Hcount. cbn in Hcount.
      rewrite lookup_delete_eq.
      split; [lia|]. split; [by intros []|lia].
    + rewrite (Hother g Hne) in Hcount. rewrite lookup_delete_ne by done.
      replace (runs_of g (<[i := new]> (st_threads st))) with (runs_of g (st_threads st)) by lia.
      done.
  - intros g ch'. destruct (decide (g = g0)) as [->|Hne].
    + by rewrite lookup_delete_eq.
    + rewrite lookup_delete_ne by done. apply Hqueue.
  - by apply Forall_insert.
  - by apply observed_insert.
Qed.

End gate_steps.

Lemma holds_same_guild g pc pc' p p' vc vc' below below' :
  GuildID p' = GuildID p -> before_delete pc' = before_delete pc ->
  holds g (FPlay pc' p' vc' :: below') = holds g (FPlay pc p vc :: below).
Proof. intros Hg Hpc. cbn. by rewrite Hg, Hpc. Qed.

Lemma insert_is_Some_same (q : gmap string chan) g0 ch ch' g :
  q !! g0 = Some ch -> is_Some (<[g0 := ch']> q !! g) <-> is_Some (q !! g).
Proof.
  intros Hq. destruct (decide (g = g0)) as [->|Hne].
  - rewrite lookup_insert_eq, Hq. split; eauto.
  - by rewrite lookup_insert_ne.
Qed.

(** A step that does not interleave with another submission's
    check-then-act keeps the invariant of the gate. *)
Lemma serial_step_gate_inv discord i st st' :
  gate_inv st -> serial_step discord i st = Some st' -> gate_inv st'.
Proof.
  intros Hinv. unfold serial_step, step.
  destruct (quiet_except i (st_threads st)) eqn:Hquiet; [|done].
  destruct (st_halted st); [done|].
  destruct (st_threads st !! i) as [[|top below]|] eqn:Hi; [done| |done].
  pose proof (Forall_lookup_1 _ _ _ _ (gate_stacks _ Hinv) Hi) as Hstk.
  pose proof (Forall_lookup_1 _ _ _ _ (gate_observed _ Hinv) Hi) as Hobs.
  pose proof (gate_queue _ Hinv) as Hqueue.
  assert (Hplain : plain (frame_play top)).
  { destruct Hstk as [Hp _]. by inversion Hp. }
  destruct top as [[] p|[] p vc]; cbn [step_frame frame_play] in *.
  - (* line 507 *)
    destruct (st_queues st !! GuildID p) eqn:Hq; intros [= <-];
      (eapply gate_inv_same; eauto using stack_ok_next); done.
  - (* line 510 *)
    destruct (decide _); intros [= <-];
      (eapply gate_inv_same; eauto using stack_ok_next); done.
  - (* line 511 *)
    destruct (st_queues st !! GuildID p) as [ch|] eqn:Hq; [|done].
    destruct (decide _); [|done]. intros [= <-].
    eapply gate_inv_same; eauto using stack_ok_next; try done.
    + intros g. by eapply insert_is_Some_same.
    + intros g ch'. destruct (decide (g = GuildID p)) as [->|Hne].
      * rewrite lookup_insert_eq. intros [= <-]. cbn.
        apply Forall_app. split; [by eapply Hqueue|]. by repeat constructor.
      * rewrite lookup_insert_ne by done. apply Hqueue.
  - (* line 514 *)
    intros [= <-]. eapply gate_inv_acquire; eauto using stack_ok_next; try done.
    + cbn. by rewrite bool_decide_eq_true.
    + intros g Hne. cbn. by rewrite bool_decide_eq_false.
  - (* line 515 *)
    intros [= <-]. eapply gate_inv_same; eauto; try done.
    + intros g. cbn. by rewrite andb_true_r.
    + by eapply stack_ok_push.
  - (* enqueuePlay returns *)
    intros [= <-]. destruct (stack_ok_pop _ _ Hstk) as (Hbelow & Hcrit & Hholds).
    eapply gate_inv_same; eauto using observed_quiet; try done.
  - (* lines 559-569 *)
    destruct vc as [vc|].
    + intros [= <-]. eapply gate_inv_same; eauto using stack_ok_next; try done.
    + destruct (join_ok discord _ _ _); intros [= <-].
      * eapply gate_inv_same; eauto using stack_ok_next; try done.
      * eapply gate_inv_release; eauto using stack_ok_next; try done.
        -- cbn. by rewrite bool_decide_eq_true_2.
        -- cbn. by rewrite andb_false_r.
        -- intros g Hne. cbn. by rewrite bool_decide_eq_false_2.
  - (* lines 571-584 *)
    destruct vc as [vc|], (Play_Sound p); intros [= <-];
      (eapply gate_inv_same; eauto using stack_ok_next); done.
  - (* lines 586-589 *)
    unfold plain in Hplain. rewrite Hplain. intros [= <-].
    eapply gate_inv_same; eauto using stack_ok_next; done.
  - (* lines 591-596 *)
    destruct (st_queues st !! GuildID p) as [[n [|next rest]]|] eqn:Hq; intros [= <-].
    + eapply gate_inv_same; eauto using stack_ok_next; done.
    + specialize (Hqueue _ _ Hq). cbn in Hqueue.
      inversion Hqueue as [|? ? [Hg Hnext] Hrest]; subst.
      eapply gate_inv_same; eauto; try done.
      * intros g. by apply holds_same_guild.
      * intros g. by eapply insert_is_Some_same.
      * intros g ch'. destruct (decide (g = GuildID p)) as [->|Hne].
        -- rewrite lookup_insert_eq. by intros [= <-].
        -- rewrite lookup_insert_ne by done. by apply gate_queue.
      * by eapply stack_ok_push.
    + eapply gate_inv_same; eauto using stack_ok_next; done.
  - (* line 599 *)
    intros [= <-]. eapply gate_inv_same; eauto using stack_ok_next; done.
  - (* line 600 *)
    intros [= <-]. eapply gate_inv_release; eauto using stack_ok_next; try done.
    + cbn. by rewrite bool_decide_eq_true_2.
    + cbn. by rewrite andb_false_r.
    + intros g Hne. cbn. by rewrite bool_decide_eq_false_2.
  - (* line 601 *)
    intros [= <-]. eapply gate_inv_same; eauto using stack_ok_next; done.
  - (* playSound returns *)
    intros [= <-]. destruct (stack_ok_pop _ _ Hstk) as (Hbelow & Hcrit & Hholds).
    eapply gate_inv_same; eauto using observed_quiet; try done.
    intros g. rewrite Hholds. cbn. by rewrite andb_false_r.
Qed.

Lemma runs_of_submissions g plays :
  runs_of g (map (fun p => [FEnq EnqCheck p]) plays) = 0%nat.
Proof. induction plays as [|p plays IH]; [done|]. cbn [map]. by rewrite runs_of_cons, IH. Qed.

Lemma submissions_gate_inv plays : Forall plain plays -> gate_inv (submissions plays).
Proof.
  intros Hplain. split; cbn.
  - intros g. rewrite runs_of_submissions, lookup_empty.
    split; [lia|]. split; [by intros []|done].
  - intros g ch. by rewrite lookup_empty.
  - apply Forall_fmap. eapply Forall_impl; [exact Hplain|].
    intros p Hp. split; [by repeat constructor|done].
  - apply Forall_fmap. by apply Forall_true.
Qed.

Lemma run_serial_gate_inv discord sched : forall st st',
  gate_inv st -> run (serial_step discord) sched st = Some st' -> gate_inv st'.
Proof.
  induction sched as [|i sched IH]; intros st st' Hinv; cbn [run].
  - by intros [= <-].
  - destruct (serial_step discord i st) as [st1|] eqn:Hstep; [|done].
    apply IH. by eapply serial_step_gate_inv.
Qed.

(** Only the statement of line 514, executed by a submission that found
    no entry, makes a goroutine carry a run it did not carry before. *)
Lemma serial_step_starts discord i st st' g :
  gate_inv st -> serial_step discord i st = Some st' ->
  (runs_of g (st_threads st) < runs_of g (st_threads st'))%nat ->
  st_queues st !! g = None /\
  exists p below,
    st_threads st !! i = Some (FEnq EnqMake p :: below) /\ GuildID p = g.
Proof.
  intros Hinv. unfold serial_step, step.
  destruct (quiet_except i (st_threads st)) eqn:Hquiet; [|done].
  destruct (st_halted st); [done|].
  destruct (st_threads st !! i) as [[|top below]|] eqn:Hi; [done| |done].
  pose proof (Forall_lookup_1 _ _ _ _ (gate_stacks _ Hinv) Hi) as Hstk.
  pose proof (Forall_lookup_1 _ _ _ _ (gate_observed _ Hinv) Hi) as Hobs.
  pose proof (gate_queue _ Hinv) as Hqueue.
  assert (Hplain : plain (frame_play top)).
  { destruct Hstk as [Hp _]. by inversion Hp. }
  destruct (step_frame discord (st_queues st) (st_joins st) top below)
    as [[[[q j] new] h]|] eqn:Hstep; [|done].
  intros [= <-]. cbn [st_threads]. intros Hlt.
  pose proof (runs_of_insert g _ _ _ new Hi) as Hcount.
  assert (Hboth : holds g (top :: below) = false /\ holds g new = true)
    by (destruct (holds g (top :: below)), (holds g new); cbn in Hcount; (done || lia)).
  destruct Hboth as [Hold Hnew]. clear Hcount Hlt.
  destruct top as [[] p|[] p vc]; cbn [step_frame frame_play] in *.
  all: repeat case_match.
  all: simplify_eq.
  all: try (cbn in Hnew, Hold; rewrite ?andb_true_r, ?andb_false_r in *; congruence).
  all: try (destruct (stack_ok_pop _ _ Hstk) as (_ & _ & Hholds);
            rewrite Hholds in Hnew; done).
  - cbn in Hnew, Hobs. apply bool_decide_eq_true in Hnew. subst g. eauto.
  - match goal with
    | H : st_queues st !! GuildID p = Some _ |- _ =>
        specialize (Hqueue _ _ H); cbn in Hqueue
    end.
    inversion Hqueue as [|? ? [Hg _] _]; subst.
    cbn in Hnew, Hold. rewrite Hg in Hnew. congruence.
Qed.

(** Two submissions for the idle guild [g1], interleaved: both find no
    entry at line 507, both record a queue and call [playSound]. *)
Lemma racing_submissions_two_runs :
  exists st,
    run (step live_session) [0; 1; 0; 0; 1; 1]%nat
        (submissions [request "a"; request "b"]) = Some st /\
    runs_of "g1" (st_threads st) = 2%nat.
Proof. eexists. split; [vm_compute; reflexivity|]. vm_compute. reflexivity. Qed.

(** A chained request and a later submission, neither interleaved with
    the other's check-then-act: the follow-up's call deletes the entry,
    the first call is still at its own line 592, and the submission
    starts a second run. *)
Lemma chained_then_submission_two_runs :
  exists st,
    run (serial_step live_session) (repeat 0%nat 14 ++ [1; 1; 1]%nat)
        (submissions [chained_request; request "b"]) = Some st /\
    runs_of "g1" (st_threads st) = 2%nat.
Proof. eexists. split; [vm_compute; reflexivity|]. vm_compute. reflexivity. Qed.

(** C3, for what the gate does give.  Let the submissions be for
    requests without follow-up, and let no goroutine take a step while
    another one is between the check of line 507 and the statement that
    acts on it.  Then, in every state reached, each guild has at most one
    run that has not passed its [delete], and the guild has a queue entry
    exactly when it has such a run; a goroutine starts to carry a run
    only by line 514, which it reaches having found no entry; and a run
    at line 592 with a non-empty queue takes the head of the queue and
    goes on with it on the same connection, going on to line 599 only
    when its queue is empty. *)
Theorem gate_single_flight discord plays sched st :
  Forall plain plays ->
  run (serial_step discord) sched (submissions plays) = Some st ->
  (forall g,
     (runs_of g (st_threads st) <= 1)%nat /\
     (is_Some (st_queues st !! g) <-> runs_of g (st_threads st) = 1%nat)) /\
  (forall i st' g,
     serial_step discord i st = Some st' ->
     (runs_of g (st_threads st) < runs_of g (st_threads st'))%nat ->
     st_queues st !! g = None /\
     exists p below,
       st_threads st !! i = Some (FEnq EnqMake p :: below) /\ GuildID p = g) /\
  (forall i p vc below,
     st_threads st !! i = Some (FPlay PsDrain p vc :: below) ->
     st_halted st = false -> quiet_except i (st_threads st) = true ->
     exists st',
       serial_step discord i st = Some st' /\
       match st_queues st !! GuildID p with
       | Some (mkChan n (next :: rest)) =>
           st_threads st' !! i
           = Some (FPlay PsAcquire next vc :: FPlay PsReturn p vc :: below) /\
           st_queues st' !! GuildID p = Some (mkChan n rest)
       | _ =>
           st_threads st' !! i = Some (FPlay PsSleep p vc :: below) /\
           st_queues st' = st_queues st
       end).
Proof.
  intros Hplain Hrun.
  assert (Hinv : gate_inv st).
  { eapply run_serial_gate_inv; [|exact Hrun]. by apply submissions_gate_inv. }
  split; [apply Hinv|]. split.
  - intros i st' g. by apply serial_step_starts.
  - intros i p vc below Hi Hhalt Hquiet.
    unfold serial_step, step. rewrite Hquiet, Hhalt, Hi. cbn [step_frame].
    pose proof (lookup_lt_Some _ _ _ Hi) as Hlt.
    destruct (st_queues st !! GuildID p) as [[n [|next rest]]|];
      eexists; (split; [reflexivity|]); cbn;
      rewrite ?list_lookup_insert_eq, ?lookup_insert_eq by done; done.
Qed.

Lemma gate_single_flight_witness :
  exists st,
    run (serial_step live_session) [0; 0; 0; 0; 1; 1; 1]%nat
        (submissions [request "a"; request "b"]) = Some st /\
    (runs_of "g1" (st_threads st) <= 1)%nat /\
    (is_Some (st_queues st !! "g1"%string) <-> runs_of "g1" (st_threads st) = 1%nat).
Proof.
  eexists. split; [vm_compute; reflexivity|].
  refine (proj1 (gate_single_flight live_session [request "a"; request "b"]
                   [0; 0; 0; 0; 1; 1; 1]%nat _ _ _) "g1"%string).
  - repeat constructor.
  - vm_compute. reflexivity.
Defined.

(** A goroutine left alone goes through the statements of the
    sequential calls: same map and same number of joins at the end. *)
Lemma lone_goroutine_agrees :
  exists st,
    run (step live_session) (repeat 0%nat 20) (submissions [chained_request]) = Some st /\
    st_threads st = [[]] /\
    let '(_, w', _) := enqueue live_session 2 guild_g1 chained_request w_idle in
    st_queues st = queues w' /\ st_joins st = joins w'.
Proof. eexists. split; [vm_compute; reflexivity|]. vm_compute. done. Qed.

(** * Further properties of the code *)

(** ** Serving the queue in order *)







(** ** A command in an idle guild, from the request to the disconnect *)

Lemma Random_in_collection (s : SoundCollection) (src : Z) :
  0 < soundRange s -> soundRange s <= cumWeight (Sounds s) ->
  exists sound, Random src s = Ret (Some sound) /\ sound ∈ Sounds s.
Proof.
  intros Hpos Hle. pose proof (cumWeight_range (Sounds s)) as [_ Hmax].
  unfold Random. rewrite randomRange_pos by lia. simpl.
  pose proof (Z.mod_pos_bound src (soundRange s) Hpos) as Hr.
  destruct (walk_below (src mod soundRange s) (Sounds s)) as (sound & Hw & Hin & _); [lia|lia|].
  exists sound. unfold Random_at. by rewrite Hw.
Qed.

Lemma createPlay_drawn discord src1 src2 user guild coll channel s w :
  getCurrentVoiceChannel discord user guild = Some channel ->
  ChainWith coll = None ->
  Random src1 coll = Ret (Some s) ->
  createPlay discord src1 src2 user guild coll None w
  = ([], w, Ret (Some {| GuildID := Guild_ID guild; ChannelID := Channel_ID channel;
                         UserID := User_ID user; Play_Sound := Some s;
                         Next := None; Forced := false |})).
Proof.
  intros Hchannel Hchain Hs. unfold createPlay. rewrite Hchannel, Hchain.
  unfold bind, lift, ret. by rewrite Hs.
Qed.



(** ** Users outside the voice channels *)

Lemma find_voice_channel_None discord user states :
  Forall (fun vs => vs_UserID vs <> User_ID user) states ->
  find_voice_channel discord user states = None.
Proof.
  induction 1 as [|vs states Hvs _ IH]; [done|].
  cbn. by rewrite decide_False.
Qed.

Lemma find_voice_channel_first discord user pre vs post :
  Forall (fun v => vs_UserID v <> User_ID user) pre ->
  vs_UserID vs = User_ID user ->
  find_voice_channel discord user (pre ++ vs :: post)
  = State_Channel discord !! vs_ChannelID vs.
Proof.
  intros Hpre Hvs. induction Hpre as [|v pre Hv _ IH]; cbn.
  - by rewrite decide_True.
  - by rewrite decide_False.
Qed.

(** X3: a command of a user who has no voice state in the guild, or
    whose first voice state there names a channel the state does not
    know, is answered by a warning in the log and by nothing else: no
    clip is drawn, whatever the collection, and the queues are not
    touched. *)
Theorem enqueuePlay_without_voice_state discord fuel src1 src2 user guild coll sound w :
  outside_voice discord user guild ->
  enqueuePlay discord fuel src1 src2 user guild coll sound w
  = ([EvLog "Failed to find channel to play sound in"], w, Ret tt).
Proof.
  intros Hout.
  assert (Hnone : getCurrentVoiceChannel discord user guild = None).
  { unfold getCurrentVoiceChannel.
    destruct Hout as [Hall|(pre & vs & post & -> & Hpre & Hvs & Hunknown)].
    - by apply find_voice_channel_None.
    - by rewrite find_voice_channel_first. }
  unfold enqueuePlay, createPlay. by rewrite Hnone.
Qed.

Lemma enqueuePlay_without_voice_state_witness :
  enqueuePlay live_session 2 0 0 (mkUser "u9") guild_g1
              (mkSoundCollection "empty" ["!empty"%string] [] None 0) None w_busy
  = ([EvLog "Failed to find channel to play sound in"], w_busy, Ret tt) /\
  enqueuePlay live_session 2 0 0 user_u1
              (mkGuild "g1" [mkVoiceState "u1" "c9"; mkVoiceState "u1" "c1"])
              AIRHORN None w_busy
  = ([EvLog "Failed to find channel to play sound in"], w_busy, Ret tt).
Proof.
  split.
  - apply enqueuePlay_without_voice_state. left.
    repeat constructor. cbn. congruence.
  - apply enqueuePlay_without_voice_state. right.
    exists [], (mkVoiceState "u1" "c9"), [mkVoiceState "u1" "c1"].
    repeat split. constructor.
Defined.

(** ** Weighted selection *)

Lemma walk_member number i l x : walk number i l = Some x -> x ∈ l.
Proof.
  intros Hw. destruct (walk_Some _ _ _ _ Hw) as (pre & post & -> & _). set_solver.
Qed.

Lemma walk_positive number l : forall i x,
  Forall (fun y => 0 <= Weight y) l ->
  0 <= i -> i + totalWeight l <= GoInt.max_int ->
  i <= number ->
  walk number i l = Some x -> 0 < Weight x.
Proof.
  induction l as [|y l IH]; intros i x Hnn Hi Hmax Hle; [done|].
  inversion Hnn as [|? ? Hy Hl]; subst.
  rewrite totalWeight_cons in Hmax.
  pose proof (totalWeight_nonneg l Hl) as Hl0.
  cbn [walk]. unfold GoInt.add.
  rewrite GoInt_wrap_id
    by (unfold GoInt.in_range, GoInt.min_int, GoInt.max_int in *; lia).
  destruct (Z.ltb_spec number (i + Weight y)) as [Hlt|Hge].
  - intros [= <-]. lia.
  - apply IH; [done|lia|lia|lia].
Qed.

Lemma walk_above number l : forall i,
  Forall (fun y => 0 <= Weight y) l ->
  0 <= i -> i + totalWeight l <= GoInt.max_int ->
  i + totalWeight l <= number ->
  walk number i l = None.
Proof.
  induction l as [|y l IH]; intros i Hnn Hi Hmax Hle; [done|].
  inversion Hnn as [|? ? Hy Hl]; subst.
  rewrite totalWeight_cons in Hmax, Hle.
  pose proof (totalWeight_nonneg l Hl) as Hl0.
  cbn [walk]. unfold GoInt.add.
  rewrite GoInt_wrap_id
    by (unfold GoInt.in_range, GoInt.min_int, GoInt.max_int in *; lia).
  destruct (Z.ltb_spec number (i + Weight y)) as [Hlt|Hge]; [lia|].
  apply IH; [done|lia|lia|lia].
Qed.

(** X4: with weights that are not negative and whose sum fits an
    [int], the clip the loop of [Random] returns, whatever the draw, is
    a clip of the collection, and none of weight 0. *)
Theorem Random_at_member_positive (s : SoundCollection) (number : Z) (x : Sound) :
  Forall (fun y => 0 <= Weight y) (Sounds s) ->
  totalWeight (Sounds s) <= GoInt.max_int ->
  0 <= number ->
  Random_at number s = Some x ->
  x ∈ Sounds s /\ 0 < Weight x.
Proof.
  intros Hnn Hmax Hnum Hw. unfold Random_at in Hw. split.
  - by eapply walk_member.
  - eapply (walk_positive number (Sounds s) 0); [done|lia|lia|lia|done].
Qed.

Lemma Random_at_member_positive_witness :
  clip_spam ∈ Sounds AIRHORN /\ 0 < Weight clip_spam.
Proof.
  apply (Random_at_member_positive AIRHORN 2000 clip_spam).
  - repeat constructor; cbn; lia.
  - vm_compute. congruence.
  - lia.
  - reflexivity.
Defined.

(** ** Loading more than once *)

Lemma SoundCollection_Load_fields fs sc sc' :
  SoundCollection_Load fs sc = Ret sc' ->
  soundRange sc' = cumFrom (soundRange sc) (Sounds sc) /\
  map Weight (Sounds sc') = map Weight (Sounds sc).
Proof.
  unfold SoundCollection_Load.
  destruct (Load_sounds fs sc (soundRange sc) (Sounds sc)) as [[r sounds']| |] eqn:Hl;
    cbn; [|done..].
  intros [= <-]. cbn. by destruct (Load_sounds_range _ _ _ _ _ _ Hl) as [-> Hw].
Qed.

Lemma totalWeight_weights l1 l2 :
  map Weight l1 = map Weight l2 -> totalWeight l1 = totalWeight l2.
Proof.
  revert l2. induction l1 as [|x l1 IH]; intros [|y l2] Hmap; try done.
  injection Hmap as Hx Hl. rewrite !totalWeight_cons, Hx. f_equal. by apply IH.
Qed.

Lemma Forall_weights (P : Z -> Prop) (l1 l2 : list Sound) :
  map Weight l1 = map Weight l2 ->
  Forall (fun x => P (Weight x)) l1 -> Forall (fun x => P (Weight x)) l2.
Proof.
  intros Hmap H1. apply (Forall_fmap Weight P) in H1.
  apply (Forall_fmap Weight P). change (fmap Weight l2) with (map Weight l2).
  by rewrite <- Hmap.
Qed.

(** X5: [Load] adds the weights to the [soundRange] the collection has:
    a second [Load] doubles it, and every draw of the upper half then
    makes [Random] return nil. *)
Theorem SoundCollection_Load_accumulates fs sc sc1 sc2 :
  soundRange sc = 0 ->
  Forall (fun x => 0 <= Weight x) (Sounds sc) ->
  0 < totalWeight (Sounds sc) ->
  2 * totalWeight (Sounds sc) <= GoInt.max_int ->
  SoundCollection_Load fs sc = Ret sc1 ->
  SoundCollection_Load fs sc1 = Ret sc2 ->
  soundRange sc1 = totalWeight (Sounds sc) /\
  soundRange sc2 = 2 * totalWeight (Sounds sc) /\
  forall src, totalWeight (Sounds sc) <= src mod (2 * totalWeight (Sounds sc)) ->
    Random src sc2 = Ret None.
Proof.
  intros H0 Hnn Hpos Hmax Hl1 Hl2.
  destruct (SoundCollection_Load_fields _ _ _ Hl1) as [Hr1 Hw1].
  destruct (SoundCollection_Load_fields _ _ _ Hl2) as [Hr2 Hw2].
  set (T := totalWeight (Sounds sc)) in *.
  assert (Ht1 : totalWeight (Sounds sc1) = T) by (by apply totalWeight_weights).
  assert (Ht2 : totalWeight (Sounds sc2) = T)
    by (rewrite <- Ht1; by apply totalWeight_weights).
  assert (Hnn1 : Forall (fun x => 0 <= Weight x) (Sounds sc1))
    by (by apply (Forall_weights (fun z => 0 <= z) (Sounds sc))).
  assert (Hnn2 : Forall (fun x => 0 <= Weight x) (Sounds sc2))
    by (by apply (Forall_weights (fun z => 0 <= z) (Sounds sc1))).
  assert (Hs1 : soundRange sc1 = T).
  { rewrite Hr1, H0. rewrite cumFrom_total; [lia|done|lia|fold T; lia]. }
  assert (Hs2 : soundRange sc2 = 2 * T).
  { rewrite Hr2, Hs1. rewrite cumFrom_total; [lia|done|lia|lia]. }
  split; [done|]. split; [done|].
  intros src Hsrc. unfold Random. rewrite Hs2.
  rewrite randomRange_pos by lia. cbn. f_equal. unfold Random_at.
  apply walk_above; [done|lia|lia|lia].
Qed.

Lemma SoundCollection_Load_accumulates_witness :
  exists sc2,
    SoundCollection_Load ∅ AIRHORN = Ret sc2 /\
    soundRange sc2 = 12920 /\
    Random 6460 sc2 = Ret None.
Proof.
  destruct (SoundCollection_Load ∅ AIRHORN) as [sc2| |] eqn:Hl2;
    [|vm_compute in Hl2; discriminate..].
  exists sc2. split; [reflexivity|].
  destruct (SoundCollection_Load_accumulates ∅ AIRHORN_literal AIRHORN sc2)
    as (_ & Hr & Hnil).
  - reflexivity.
  - repeat constructor; cbn; lia.
  - vm_compute. reflexivity.
  - vm_compute. congruence.
  - vm_compute. reflexivity.
  - exact Hl2.
  - split; [exact Hr|]. apply Hnil. vm_compute. congruence.
Defined.

(** ** Loading without resources *)

Lemma Load_sounds_missing fs sc : forall sounds range,
  Forall (fun s => fs !! dca_path sc s = None) sounds ->
  Load_sounds fs sc range sounds = Ret (cumFrom range sounds, sounds).
Proof.
  induction sounds as [|s sounds IH]; intros range Hall; [done|].
  inversion Hall as [|? ? Hs Hrest]; subst.
  cbn [Load_sounds]. unfold Sound_Load. rewrite Hs. cbn.
  rewrite IH by done. cbn. by rewrite cumFrom_cons.
Qed.

(** X6: [SoundCollection.Load] drops the errors of [Sound.Load]: when
    none of the resources exists it returns all the same, the clips as
    they were and [soundRange] advanced by their weights, so that the
    commands of the collection are served with clips without frames. *)
Theorem SoundCollection_Load_missing_resources fs sc :
  Forall (fun s => fs !! dca_path sc s = None) (Sounds sc) ->
  SoundCollection_Load fs sc
  = Ret {| Prefix := Prefix sc; Commands := Commands sc; Sounds := Sounds sc;
           ChainWith := ChainWith sc;
           soundRange := cumFrom (soundRange sc) (Sounds sc) |}.
Proof.
  intros Hall. unfold SoundCollection_Load. by rewrite Load_sounds_missing.
Qed.

Lemma SoundCollection_Load_missing_resources_witness :
  SoundCollection_Load ∅ AIRHORN_literal
  = Ret {| Prefix := "airhorn"; Commands := ["!airhorn"%string];
           Sounds := airhorn_sounds; ChainWith := None;
           soundRange := cumFrom 0 airhorn_sounds |}.
Proof.
  apply (SoundCollection_Load_missing_resources ∅ AIRHORN_literal).
  apply Forall_true. intros s. apply lookup_empty.
Defined.

(** ** What [Sound.Load] has read *)

Lemma byte_of_to_Z b : byte_of_Z (byte_to_Z b) = b.
Proof. unfold byte_of_Z, byte_to_Z. by rewrite N2Z.id, Byte.of_to_N. Qed.

Lemma le16_Uint16 b0 b1 :
  le16 (LittleEndian_Uint16 [b0; b1]) = [b0; b1].
Proof.
  rewrite LittleEndian_Uint16_value. unfold le16.
  pose proof (byte_to_Z_range b0) as H0. pose proof (byte_to_Z_range b1) as H1.
  rewrite <- (Z.mod_unique_pos _ 256 (byte_to_Z b1) (byte_to_Z b0)) by lia.
  rewrite <- (Z.div_unique_pos _ 256 (byte_to_Z b1) (byte_to_Z b0)) by lia.
  rewrite (Z.mod_small (byte_to_Z b1)) by lia.
  by rewrite !byte_of_to_Z.
Qed.

Lemma int16_nonneg u : 0 <= u < 2 ^ 16 -> 0 <= int16 u -> int16 u = u /\ u < 2 ^ 15.
Proof. unfold int16. destruct (Z.ltb_spec u (2 ^ 15)); lia. Qed.

Lemma ReadFull_2 file bs file' :
  ReadFull 2 file = (inl bs, file') ->
  exists b0 b1, bs = [b0; b1] /\ contents file = b0 :: b1 :: contents file' /\
                faulty file' = faulty file.
Proof.
  unfold ReadFull. rewrite decide_False by lia.
  destruct (decide (2 <= length (contents file))%nat) as [Hle|Hgt]; [|done].
  intros [= <- <-]. destruct (contents file) as [|b0 [|b1 rest]]; cbn in *; try lia.
  by exists b0, b1.
Qed.

Lemma ReadFull_payload n file bs file' :
  ReadFull n file = (inl bs, file') ->
  length bs = n /\ contents file = bs ++ contents file' /\ faulty file' = faulty file.
Proof.
  unfold ReadFull. destruct (decide (n = 0%nat)) as [->|Hn].
  - by intros [= <- <-].
  - destruct (decide (n <= length (contents file))%nat) as [Hle|Hgt]; [|done].
    intros [= <- <-]. cbn. rewrite length_take, take_drop. split; [lia|done].
Qed.

Lemma ReadFull_2_error file err file' :
  ReadFull 2 file = (inr err, file') ->
  (length (contents file) <= 1)%nat /\
  (faulty file = true /\ err = ErrIO \/
   faulty file = false /\ (err = EOF \/ err = ErrUnexpectedEOF)).
Proof.
  unfold ReadFull. rewrite decide_False by lia.
  destruct (decide (2 <= length (contents file))%nat) as [Hle|Hgt]; [done|].
  intros [= <- <-]. split; [lia|].
  destruct (faulty file); [by left|]. right. split; [done|].
  destruct (contents file); [by left|by right].
Qed.

Lemma ReadFull_payload_error n file err file' :
  ReadFull n file = (inr err, file') ->
  (length (contents file) < n)%nat /\
  err = (if faulty file then ErrIO
         else match contents file with [] => EOF | _ => ErrUnexpectedEOF end).
Proof.
  unfold ReadFull. destruct (decide (n = 0%nat)) as [->|Hn]; [done|].
  destruct (decide (n <= length (contents file))%nat) as [Hle|Hgt]; [done|].
  intros [= <- <-]. split; [lia|done].
Qed.

Lemma Uint16_range b0 b1 : 0 <= LittleEndian_Uint16 [b0; b1] < 2 ^ 16.
Proof.
  rewrite LittleEndian_Uint16_value.
  pose proof (byte_to_Z_range b0). pose proof (byte_to_Z_range b1). lia.
Qed.

(** The loop of [Sound.Load] reads the complete frames the resource
    starts with and ends on what follows them. *)
Lemma Load_frames_classify fuel : forall file buf,
  (length (contents file) < fuel)%nat ->
  exists frames tail r,
    contents file = encode_frames frames ++ tail /\
    Forall short_frame frames /\
    Load_end (faulty file) tail r /\
    Load_frames fuel file buf = obind r (fun err => Ret (buf ++ frames, err)).
Proof.
  induction fuel as [|fuel IH]; intros file buf Hfuel; [lia|].
  cbn [Load_frames]. unfold binary_Read_int16, binary_Read_bytes.
  destruct (ReadFull 2 file) as [[bs|e] file1] eqn:Hrd.
  - destruct (ReadFull_2 _ _ _ Hrd) as (b0 & b1 & -> & Hc & Hf).
    set (u := LittleEndian_Uint16 [b0; b1]).
    pose proof (Uint16_range b0 b1) as Hu. fold u in Hu.
    destruct (Z.ltb_spec (int16 u) 0) as [Hneg|Hpos].
    { exists [], (contents file), (Panic "makeslice: len out of range").
      split; [done|]. split; [constructor|]. split; [|done].
      rewrite Hc. by constructor. }
    destruct (int16_nonneg u Hu Hpos) as [Hi Hsmall].
    destruct (ReadFull (Z.to_nat (int16 u)) file1) as [[InBuf|e] file2] eqn:Hrd2.
    + destruct (ReadFull_payload _ _ _ _ Hrd2) as (Hlen & Hc1 & Hf1).
      destruct (IH file2 (buf ++ [InBuf])) as (frames & tail & r & Hc2 & Hshort & Hend & Hrun).
      { rewrite Hc, Hc1 in Hfuel. cbn in Hfuel. rewrite length_app in Hfuel. lia. }
      exists (InBuf :: frames), tail, r. split; [|split; [|split]].
      * rewrite Hc, Hc1, Hc2. unfold encode_frames. cbn [map concat].
        unfold encode_frame. rewrite Hlen, Hi, Z2Nat.id by lia.
        unfold u. rewrite le16_Uint16. by rewrite <- !app_assoc.
      * constructor; [|done]. unfold short_frame. rewrite Hlen, Hi. lia.
      * by rewrite <- Hf, <- Hf1.
      * rewrite Hrun. by rewrite <- app_assoc.
    + destruct (ReadFull_payload_error _ _ _ _ Hrd2) as [Hlen ->].
      exists [], (contents file),
        (Ret (Some (if faulty file then ErrIO
                    else match contents file1 with
                         | [] => EOF
                         | _ => ErrUnexpectedEOF
                         end))).
      split; [done|]. split; [constructor|]. split; [|by rewrite app_nil_r, Hf].
      rewrite Hc. change (b0 :: b1 :: contents file1) with ([b0; b1] ++ contents file1).
      rewrite <- (le16_Uint16 b0 b1). fold u. rewrite <- Hi.
      apply end_payload; [lia|done].
  - destruct (ReadFull_2_error _ _ _ Hrd) as [Hlen [[Hf ->]|[Hf He]]].
    + exists [], (contents file), (Ret (Some ErrIO)).
      split; [done|]. split; [constructor|]. split; [by apply end_device|].
      rewrite decide_False by (intros [|]; discriminate). by rewrite app_nil_r.
    + exists [], (contents file), (Ret None).
      split; [done|]. split; [constructor|]. split; [by apply end_clean|].
      rewrite decide_True by done. by rewrite app_nil_r.
Qed.

Lemma le16_inj n m : 0 <= n < 2 ^ 16 -> 0 <= m < 2 ^ 16 -> le16 n = le16 m -> n = m.
Proof.
  intros Hn Hm Heq.
  rewrite <- (LittleEndian_Uint16_le16 n), <- (LittleEndian_Uint16_le16 m) by done.
  by rewrite Heq.
Qed.

(** Where [Sound.Load] ends, no complete frame follows. *)
Lemma Load_end_no_frame fl tail r frame rest :
  Load_end fl tail r -> short_frame frame -> tail <> encode_frame frame ++ rest.
Proof.
  unfold short_frame, encode_frame.
  intros Hend Hshort Heq. destruct Hend as [tail Hlen _|tail Hlen _|n part Hn Hpart|b0 b1 tl Hneg].
  - rewrite Heq, !length_app, length_le16 in Hlen. lia.
  - rewrite Heq, !length_app, length_le16 in Hlen. lia.
  - rewrite <- app_assoc in Heq.
    apply app_inj_1 in Heq as [Hle Hrest]; [|by rewrite !length_le16].
    apply le16_inj in Hle; [|lia|lia].
    subst. rewrite length_app in Hpart. lia.
  - rewrite <- app_assoc in Heq.
    change (b0 :: b1 :: tl) with ([b0; b1] ++ tl) in Heq.
    apply app_inj_1 in Heq as [Hle _]; [|by rewrite length_le16].
    rewrite Hle, LittleEndian_Uint16_le16, int16_small in Hneg by lia. lia.
Qed.

(** X7: whatever the resource holds, [Sound.Load] appends to the clip
    exactly the complete frames the resource starts with, in their
    order, each shorter than 32768 bytes, and changes nothing else of
    the clip; how it ends is settled by what follows these frames,
    which is never another complete frame: at most one byte (no error,
    or the error of a failing device), a length with less payload than
    it announces (the error of the read), or a negative length (the
    panic of [make], the clip then being lost with the call). *)
Theorem Sound_Load_reads_frames (fs : gmap string File) (c : SoundCollection)
    (s : Sound) (file : File) :
  fs !! dca_path c s = Some file ->
  exists frames tail r,
    contents file = encode_frames frames ++ tail /\
    Forall short_frame frames /\
    Load_end (faulty file) tail r /\
    (forall frame rest, short_frame frame -> tail <> encode_frame frame ++ rest) /\
    Sound_Load fs c s
    = obind r (fun err => Ret (set_buffer s (buffer s ++ frames), err)).
Proof.
  intros Hfile.
  destruct (Load_frames_classify (S (length (contents file))) file (buffer s))
    as (frames & tail & r & Hc & Hshort & Hend & Hrun); [lia|].
  exists frames, tail, r. split; [done|]. split; [done|]. split; [done|].
  split; [intros frame rest; by apply (Load_end_no_frame (faulty file) tail r)|].
  unfold Sound_Load. rewrite Hfile, Hrun. by destruct r.
Qed.

Lemma Sound_Load_reads_frames_witness :
  exists frames tail r,
    [x01; x00; xaa; x05; x00; xbb] = encode_frames frames ++ tail /\
    Forall short_frame frames /\
    Load_end false tail r /\
    (forall frame rest, short_frame frame -> tail <> encode_frame frame ++ rest) /\
    Sound_Load (one_file [x01; x00; xaa; x05; x00; xbb]) AIRHORN clip_default
    = obind r (fun err =>
        Ret (set_buffer clip_default (buffer clip_default ++ frames), err)).
Proof.
  apply (Sound_Load_reads_frames (one_file [x01; x00; xaa; x05; x00; xbb])
           AIRHORN clip_default (mkFile [x01; x00; xaa; x05; x00; xbb] false)).
  reflexivity.
Defined.

(** ** The handlers *)

(** Unfolding the calls of a handler. *)
Ltac handler_unfold :=
  unfold hbind, hemit, hpanic, hlift, hret, from_run in *.

Lemma Split_length s sep : (1 <= length (Split s sep))%nat.
Proof.
  induction s as [|c s IH]; cbn; [lia|].
  destruct (decide (c = sep)); cbn; [lia|].
  destruct (Split s sep); cbn in *; lia.
Qed.

Lemma lookup_in_range {A} (l : list A) (i : nat) :
  (i < length l)%nat -> is_Some (l !! i).
Proof. apply lookup_lt_is_Some_2. Qed.

(** *** The sound commands *)

Lemma select_sound_acc name sounds : forall acc,
  select_sound name sounds acc
  = match select_sound name sounds None with
    | Some s => Some s
    | None => acc
    end.
Proof.
  induction sounds as [|s sounds IH]; intros acc; cbn; [done|].
  rewrite (IH (if decide (name = Name s) then Some s else acc)).
  rewrite (IH (if decide (name = Name s) then Some s else None)).
  destruct (select_sound name sounds None); [done|]. by destruct (decide _).
Qed.

Lemma select_sound_None name sounds :
  select_sound name sounds None = None <-> Forall (fun s => Name s <> name) sounds.
Proof.
  induction sounds as [|s sounds IH]; cbn; [by split; [constructor|]|].
  rewrite select_sound_acc. split.
  - destruct (select_sound name sounds None) eqn:Hsel; [done|].
    destruct (decide (name = Name s)); [done|]. intros _.
    constructor; [done|]. by apply IH.
  - intros Hall. inversion Hall as [|? ? Hs Hrest]; subst.
    apply IH in Hrest. rewrite Hrest. by rewrite decide_False.
Qed.

(** The clip selected is the last one of that name. *)
Lemma select_sound_Some name sounds s :
  select_sound name sounds None = Some s ->
  exists pre post, sounds = pre ++ s :: post /\ Name s = name /\
                   Forall (fun s' => Name s' <> name) post.
Proof.
  induction sounds as [|x sounds IH]; cbn; [done|].
  rewrite select_sound_acc.
  destruct (select_sound name sounds None) as [s'|] eqn:Hsel.
  - intros [= ->]. destruct (IH eq_refl) as (pre & post & -> & Hn & Hpost).
    by exists (x :: pre), post.
  - destruct (decide (name = Name x)) as [->|]; [|done]. intros [= <-].
    exists [], sounds. split; [done|]. split; [done|]. by apply select_sound_None.
Qed.

Lemma dispatch_skip author guild command rest colls1 : forall colls w,
  Forall (fun c => scontains command (Commands c) = false) colls1 ->
  dispatch author guild (command :: rest) (colls1 ++ colls) w
  = dispatch author guild (command :: rest) colls w.
Proof.
  induction colls1 as [|c colls1 IH]; intros colls w Hall; [done|].
  inversion Hall as [|? ? Hc Hrest]; subst.
  cbn [app dispatch lookup list_lookup]. rewrite Hc. by apply IH.
Qed.

(** X8: the collection of a sound command is the first one that lists
    the first word among its commands; without one nothing happens.
    With one word a request without clip is handed to [enqueuePlay];
    with more, the second word names the clip: the last clip of that
    collection with this name, and nothing at all when it has none
    (later collections are not looked at).  Further words are ignored.  *)
Theorem dispatch_first_collection author guild command colls w :
  (Forall (fun c => scontains command (Commands c) = false) colls ->
   forall rest, dispatch author guild (command :: rest) colls w = ([], w, Ret tt)) /\
  (forall colls1 coll colls2,
     colls = colls1 ++ coll :: colls2 ->
     Forall (fun c => scontains command (Commands c) = false) colls1 ->
     scontains command (Commands coll) = true ->
     dispatch author guild [command] colls w
     = ([ActGo_enqueuePlay author guild coll None], w, Ret tt) /\
     (forall name rest,
        Forall (fun s => Name s <> name) (Sounds coll) ->
        dispatch author guild (command :: name :: rest) colls w = ([], w, Ret tt)) /\
     (forall name rest pre s post,
        Sounds coll = pre ++ s :: post -> Name s = name ->
        Forall (fun s' => Name s' <> name) post ->
        dispatch author guild (command :: name :: rest) colls w
        = ([ActGo_enqueuePlay author guild coll (Some s)], w, Ret tt))).
Proof.
  split.
  - intros Hall rest. rewrite <- (app_nil_r colls). by rewrite dispatch_skip.
  - intros colls1 coll colls2 -> Hskip Hcoll. split; [|split].
    + rewrite dispatch_skip by done. cbn. by rewrite Hcoll.
    + intros name rest Hnone. rewrite dispatch_skip by done. cbn. rewrite Hcoll.
      by rewrite (proj2 (select_sound_None _ _) Hnone).
    + intros name rest pre s post Hsounds Hname Hpost.
      rewrite dispatch_skip by done. cbn. rewrite Hcoll.
      destruct (select_sound name (Sounds coll) None) as [s'|] eqn:Hsel.
      * destruct (select_sound_Some _ _ _ Hsel) as (pre' & post' & Hs' & Hn' & Hpost').
        assert (s' = s); [|by subst].
        rewrite Hsounds in Hs'. clear Hsel Hsounds.
        revert pre' Hs'. induction pre as [|x pre IH]; intros [|y pre'] Heq; cbn in *.
        -- congruence.
        -- injection Heq as <- Heq. subst post.
           apply Forall_app in Hpost as [_ Hpost].
           inversion Hpost; subst. congruence.
        -- injection Heq as <- Heq. subst post'.
           apply Forall_app in Hpost' as [_ Hpost'].
           inversion Hpost'; subst. congruence.
        -- injection Heq as <- Heq. by eapply IH.
      * apply select_sound_None in Hsel. rewrite Hsounds in Hsel.
        apply Forall_app in Hsel as [_ Hsel]. inversion Hsel; subst. congruence.
Qed.

Lemma dispatch_first_collection_witness :
  dispatch user_u1 guild_g1 ["!anotha"; "one"; "please"]%string [AIRHORN; KHALED] w_idle
  = ([ActGo_enqueuePlay user_u1 guild_g1 KHALED (Some clip_one)], w_idle, Ret tt) /\
  dispatch user_u1 guild_g1 ["!anotha"; "default"]%string [AIRHORN; KHALED] w_idle
  = ([], w_idle, Ret tt).
Proof.
  destruct (dispatch_first_collection user_u1 guild_g1 "!anotha" [AIRHORN; KHALED] w_idle)
    as [_ Hfirst].
  destruct (Hfirst [AIRHORN] KHALED []) as (_ & Hnone & Hsome).
  - reflexivity.
  - repeat constructor.
  - reflexivity.
  - split.
    + apply (Hsome "one"%string ["please"%string] [] clip_one
               [createSound "one_classic" 1 250; createSound "one_echo" 1 250]).
      * reflexivity.
      * reflexivity.
      * repeat constructor; cbn; congruence.
    + apply (Hnone "default"%string []). repeat constructor; cbn; congruence.
Defined.

(** *** Messages *)

Lemma bot_mentioned_spec self mentions acc :
  bot_mentioned self mentions acc = true ->
  acc = true \/ Exists (fun mention => User_ID mention = self) mentions.
Proof.
  revert acc. induction mentions as [|u mentions IH]; intros acc; cbn; [by left|].
  destruct (bool_decide_reflect (User_ID u = self)) as [Hu|Hu].
  - intros _. right. by constructor.
  - intros Hm. destruct (IH _ Hm) as [?|?]; [done|]. right. by constructor.
Qed.

Lemma bot_mentioned_true self mentions :
  Exists (fun mention => User_ID mention = self) mentions ->
  bot_mentioned self mentions false = true.
Proof.
  induction 1 as [u mentions Hu|u mentions _ IH]; cbn.
  - by rewrite bool_decide_true.
  - by destruct (bool_decide _).
Qed.

Lemma help_replies bot m w :
  exists tr,
    onMessageCreate_help bot m w = (tr, w, Ret tt) /\
    (tr = [] \/ exists reply, tr = [ActSend (msg_ChannelID m) reply]).
Proof.
  unfold onMessageCreate_help.
  set (lower := ToLower (unicode_ToLower bot) (Content m)).
  pose proof (Split_length lower " ") as Hlen.
  destruct (bool_decide (lower = "!help") || (length (Split lower " ") =? 1)%nat) eqn:Hb.
  - eexists. split; [reflexivity|]. right. by eexists.
  - apply orb_false_iff in Hb as [_ Hb]. apply Nat.eqb_neq in Hb.
    destruct (lookup_in_range (Split lower " ") 1 ltac:(lia)) as [topic ->].
    destruct (help_topic topic) as [reply|].
    + eexists. split; [reflexivity|]. right. by eexists.
    + eexists. split; [reflexivity|]. by left.
Qed.

Lemma scontains_elem_of key options : scontains key options = true <-> key ∈ options.
Proof.
  induction options as [|o options IH]; cbn; [by rewrite elem_of_nil|].
  rewrite elem_of_cons. destruct (decide (o = key)) as [->|Hne]; [by intuition|].
  rewrite IH. intuition congruence.
Qed.

Lemma dispatch_acts author guild parts : forall colls w,
  parts <> [] ->
  exists tr,
    dispatch author guild parts colls w = (tr, w, Ret tt) /\
    (tr = [] \/
     exists coll sound command,
       tr = [ActGo_enqueuePlay author guild coll sound] /\
       coll ∈ colls /\
       parts !! 0%nat = Some command /\ command ∈ Commands coll /\
       match sound with
       | None => length parts = 1%nat
       | Some s => s ∈ Sounds coll /\ parts !! 1%nat = Some (Name s)
       end).
Proof.
  intros colls w Hparts. destruct parts as [|command rest]; [done|]. clear Hparts.
  induction colls as [|coll colls IH].
  - eexists. split; [reflexivity|]. by left.
  - cbn [dispatch lookup list_lookup].
    destruct (scontains command (Commands coll)) eqn:Hc.
    + apply scontains_elem_of in Hc.
      destruct rest as [|name rest]; cbn.
      * eexists. split; [reflexivity|]. right. exists coll, None, command.
        repeat split; [apply list_elem_of_here|done].
      * destruct (select_sound name (Sounds coll) None) as [s|] eqn:Hsel.
        -- eexists. split; [reflexivity|]. right. exists coll, (Some s), command.
           destruct (select_sound_Some _ _ _ Hsel) as (pre & post & Hs & Hn & _).
           repeat split; [apply list_elem_of_here|done| |by rewrite Hn].
           rewrite Hs. apply elem_of_app. right. apply list_elem_of_here.
        -- eexists. split; [reflexivity|]. by left.
    + destruct IH as (tr & -> & Htr). exists tr. split; [done|].
      destruct Htr as [->|(c & sound & cmd & -> & Hin & ?)]; [by left|].
      right. exists c, sound, cmd. split; [done|]. split; [by apply list_elem_of_further|done].
Qed.

Lemma message_parts_nonempty bot m : message_parts bot m <> [].
Proof.
  unfold message_parts.
  match goal with |- Split ?s ?c <> [] => pose proof (Split_length s c) as Hlen;
    destruct (Split s c) end; [cbn in Hlen; lia|done].
Qed.

(** X9: a message that is not a control message of the owner cannot
    make the handler panic, whatever it holds: [onMessageCreate] returns,
    leaves the queues alone, and has done at most one thing. *)
Theorem onMessageCreate_returns bot srcs m w :
  ~ control_message bot m ->
  exists tr,
    onMessageCreate bot srcs m w = (tr, w, Ret tt) /\ (length tr <= 1)%nat.
Proof.
  intros Hctl. unfold onMessageCreate.
  destruct (ignored m); [(eexists; split; [reflexivity|cbn; lia])|].
  destruct (State_Channel (discord_session bot) !! msg_ChannelID m) as [channel|];
    [|(eexists; split; [reflexivity|cbn; lia])].
  destruct (State_Guild bot !! Channel_GuildID bot channel) as [guild|]; [|(eexists; split; [reflexivity|cbn; lia])].
  destruct (HasPrefix _ "!help").
  { destruct (help_replies bot m w) as (tr & -> & [->|[reply ->]]); (eexists; split; [reflexivity|cbn; lia]). }
  destruct ((0 <? length (Mentions m))%nat && bool_decide (User_ID (Author m) = OWNER bot)
            && (0 <? length (message_parts bot m))%nat) eqn:Hgate.
  - destruct (bot_mentioned (Ready_User_ID bot) (Mentions m) false) eqn:Hm; [|(eexists; split; [reflexivity|cbn; lia])].
    exfalso. apply Hctl. split.
    + apply andb_true_iff in Hgate as [Hgate _]. apply andb_true_iff in Hgate as [_ Ho].
      by apply bool_decide_eq_true in Ho.
    + by destruct (bot_mentioned_spec _ _ _ Hm).
  - destruct (dispatch_acts (Author m) guild (message_parts bot m) (COLLECTIONS bot) w
                (message_parts_nonempty bot m)) as (tr & -> & Htr).
    exists tr. split; [done|].
    destruct Htr as [->|(? & ? & ? & -> & _)]; cbn; lia.
Qed.

Lemma onMessageCreate_returns_witness :
  exists tr,
    onMessageCreate sample_bot (always 0) (chat "u1" "!AIRHORN nosuchclip") w_busy
    = (tr, w_busy, Ret tt) /\ (length tr <= 1)%nat.
Proof.
  apply onMessageCreate_returns.
  intros [Hauthor _]. cbn in Hauthor. discriminate.
Defined.

Lemma Forall_no_enqueue_Act (tr : list event) : Forall no_enqueue (map Act tr).
Proof. apply Forall_fmap, Forall_true. by intros e. Qed.

Lemma bomb_rounds_no_enqueue airhorn srcs vc n : forall i w tr w' r,
  bomb_rounds airhorn srcs vc i n w = (tr, w', r) -> Forall no_enqueue tr.
Proof.
  induction n as [|n IH]; intros i w tr w' r; cbn [bomb_rounds].
  - handler_unfold. by intros [= <- _ _].
  - unfold hbind at 1. unfold hlift.
    destruct (Random (srcs i) airhorn) as [sound|msg|]; [|by intros [= <- _ _]..].
    unfold hbind at 1. unfold from_run.
    destruct (Sound_Play sound vc w) as [[tr1 w1] [[]|msg|]] eqn:Hplay.
    + destruct (bomb_rounds airhorn srcs vc (S i) n w1) as [[tr2 w2] r2] eqn:Hrest.
      intros [= <- _ _]. cbn. apply Forall_app. split; [apply Forall_no_enqueue_Act|].
      by eapply IH.
    + intros [= <- _ _]. apply Forall_no_enqueue_Act.
    + intros [= <- _ _]. apply Forall_no_enqueue_Act.
Qed.

Lemma airhornBomb_no_enqueue bot srcs cid guild user cs w tr w' r :
  airhornBomb bot srcs cid guild user cs w = (tr, w', r) -> Forall no_enqueue tr.
Proof.
  unfold airhornBomb. unfold hbind at 1. unfold hlift.
  destruct (Repeat ":trumpet:" (Atoi cs)) as [trumpets|msg|]; [|by intros [= <- _ _]..].
  unfold hbind at 1. unfold hemit at 1.
  destruct (100 <? Atoi cs).
  { unfold hret. intros [= <- _ _]. by repeat constructor. }
  destruct user as [user|]; [|unfold hpanic; intros [= <- _ _]; by repeat constructor].
  unfold hbind at 1. unfold from_run.
  destruct (createPlay _ _ _ user guild _ None w) as [[tr1 w1] [[play|]|msg|]].
  all: try (unfold hpanic; intros [= <- _ _]; cbn; rewrite ?app_nil_r;
            constructor; [done|apply Forall_no_enqueue_Act]).
  unfold hbind at 1. unfold ChannelVoiceJoin_deaf.
  destruct (join_ok _ _ _ _).
  - unfold hbind at 1.
    destruct (bomb_rounds _ srcs _ 2 _ _) as [[tr2 w2] [[]|msg|]] eqn:Hrounds.
    all: apply bomb_rounds_no_enqueue in Hrounds.
    all: unfold hemit; intros [= <- _ _]; cbn.
    all: constructor; [done|].
    all: apply Forall_app; split; [apply Forall_no_enqueue_Act|].
    all: constructor; [done|].
    all: rewrite ?app_nil_r; try done.
    all: apply Forall_app; split; [done|by repeat constructor].
  - unfold hret. intros [= <- _ _]. cbn. constructor; [done|].
    apply Forall_app; split; [apply Forall_no_enqueue_Act|by repeat constructor].
Qed.

Lemma handleBotControlMessages_no_enqueue bot srcs m parts g w tr w' r :
  handleBotControlMessages bot srcs m parts g w = (tr, w', r) -> Forall no_enqueue tr.
Proof.
  unfold handleBotControlMessages, displayBotStats, displayUserStats, displayServerStats.
  repeat case_match.
  all: try (intros Hb; by apply airhornBomb_no_enqueue in Hb).
  all: handler_unfold; intros [= <- _ _]; by repeat constructor.
Qed.

(** X10: whatever the message, [enqueuePlay] is started only for its
    author, in the guild of its channel, with a collection of
    [COLLECTIONS] that lists the first word of the message among its
    commands, and either without clip, for a message of one word, or
    with a clip of that collection whose name is the second word. *)
Theorem onMessageCreate_enqueues bot srcs m w tr w' r user guild coll sound :
  onMessageCreate bot srcs m w = (tr, w', r) ->
  ActGo_enqueuePlay user guild coll sound ∈ tr ->
  tr = [ActGo_enqueuePlay user guild coll sound] /\ w' = w /\ r = Ret tt /\
  user = Author m /\
  message_guild bot m = Some guild /\
  coll ∈ COLLECTIONS bot /\
  (exists command,
     message_parts bot m !! 0%nat = Some command /\ command ∈ Commands coll) /\
  match sound with
  | None => length (message_parts bot m) = 1%nat
  | Some s => s ∈ Sounds coll /\ message_parts bot m !! 1%nat = Some (Name s)
  end.
Proof.
  unfold onMessageCreate, message_guild.
  destruct (ignored m); [handler_unfold; intros [= <- _ _] Hin; by apply elem_of_nil in Hin|].
  destruct (State_Channel (discord_session bot) !! msg_ChannelID m) as [channel|];
    [|handler_unfold; intros [= <- _ _] Hin;
      apply list_elem_of_singleton in Hin; discriminate].
  destruct (State_Guild bot !! Channel_GuildID bot channel) as [g|];
    [|handler_unfold; intros [= <- _ _] Hin;
      apply list_elem_of_singleton in Hin; discriminate].
  destruct (HasPrefix _ "!help").
  { destruct (help_replies bot m w) as (tr0 & -> & [->|[reply ->]]);
      intros [= <- _ _] Hin;
      [by apply elem_of_nil in Hin|apply list_elem_of_singleton in Hin; discriminate]. }
  destruct (_ && _ && _).
  - destruct (bot_mentioned _ _ _);
      [|handler_unfold; intros [= <- _ _] Hin; by apply elem_of_nil in Hin].
    intros Hc Hin. apply handleBotControlMessages_no_enqueue in Hc.
    rewrite Forall_forall in Hc. by destruct (Hc _ Hin).
  - destruct (dispatch_acts (Author m) g (message_parts bot m) (COLLECTIONS bot) w
                (message_parts_nonempty bot m)) as (tr0 & -> & Htr).
    intros [= <- <- <-].
    destruct Htr as [->|(c & s & cmd & -> & Hin & Hcmd & Hmem & Hsound)];
      [intros Hel; by apply elem_of_nil in Hel|].
    intros Hel. apply list_elem_of_singleton in Hel. injection Hel as -> -> -> ->.
    repeat split; try done. by exists cmd.
Qed.

Lemma onMessageCreate_enqueues_witness :
  [ActGo_enqueuePlay user_u1 guild_g1 AIRHORN (Some clip_truck)]
  = [ActGo_enqueuePlay user_u1 guild_g1 AIRHORN (Some clip_truck)] /\
  w_busy = w_busy /\ Ret tt = Ret tt /\
  user_u1 = Author (chat "u1" "!AIRHORN TRUCK") /\
  message_guild sample_bot (chat "u1" "!AIRHORN TRUCK") = Some guild_g1 /\
  AIRHORN ∈ COLLECTIONS sample_bot /\
  (exists command,
     message_parts sample_bot (chat "u1" "!AIRHORN TRUCK") !! 0%nat = Some command /\
     command ∈ Commands AIRHORN) /\
  clip_truck ∈ Sounds AIRHORN /\
  message_parts sample_bot (chat "u1" "!AIRHORN TRUCK") !! 1%nat = Some (Name clip_truck).
Proof.
  apply (onMessageCreate_enqueues sample_bot (always 0) (chat "u1" "!AIRHORN TRUCK")
           w_busy _ w_busy (Ret tt) user_u1 guild_g1 AIRHORN (Some clip_truck)).
  - vm_compute. reflexivity.
  - apply list_elem_of_here.
Defined.

(** X11: a message whose lower-cased content starts with [!help] is
    answered by at most one message in its channel and starts no play,
    whatever the commands of the collections are; when it is of one
    word, the answer is the list of the commands. *)
Theorem onMessageCreate_help_replies bot srcs m w guild :
  ignored m = false ->
  message_guild bot m = Some guild ->
  HasPrefix (ToLower (unicode_ToLower bot) (Content m)) "!help" = true ->
  exists tr,
    onMessageCreate bot srcs m w = (tr, w, Ret tt) /\
    (tr = [] \/ exists reply, tr = [ActSend (msg_ChannelID m) reply]) /\
    (length (Split (ToLower (unicode_ToLower bot) (Content m)) " ") = 1%nat ->
     tr = [ActSend (msg_ChannelID m) help_basics]).
Proof.
  intros Hign Hguild Hhelp. unfold onMessageCreate, message_guild in *. rewrite Hign.
  destruct (State_Channel (discord_session bot) !! msg_ChannelID m) as [channel|]; [|done].
  rewrite Hguild, Hhelp.
  destruct (help_replies bot m w) as (tr & Hrun & Htr).
  exists tr. split; [done|]. split; [done|].
  intros Hone. unfold onMessageCreate_help in Hrun. rewrite Hone in Hrun.
  rewrite orb_true_r in Hrun. handler_unfold. congruence.
Qed.

Lemma onMessageCreate_help_replies_witness :
  exists tr,
    onMessageCreate sample_bot (always 0) (chat "u1" "!HELPME") w_idle = (tr, w_idle, Ret tt) /\
    (tr = [] \/ exists reply, tr = [ActSend "c1" reply]) /\
    (1%nat = 1%nat -> tr = [ActSend "c1" help_basics]).
Proof.
  apply (onMessageCreate_help_replies sample_bot (always 0) (chat "u1" "!HELPME")
           w_idle guild_g1); reflexivity.
Defined.

(** X12: a message of the owner that mentions the bot and is of one
    word makes the handler panic: [handleBotControlMessages] reads the
    second word without looking at the number of words. *)
Theorem onMessageCreate_bare_mention_panics bot srcs m w guild :
  Content m <> EmptyString ->
  control_message bot m ->
  message_guild bot m = Some guild ->
  HasPrefix (ToLower (unicode_ToLower bot) (Content m)) "!help" = false ->
  length (message_parts bot m) = 1%nat ->
  onMessageCreate bot srcs m w = ([], w, Panic index_out_of_range).
Proof.
  intros Hcontent [Howner Hbot] Hguild Hhelp Hone.
  unfold onMessageCreate, message_guild in *.
  assert (Hmentions : (0 <? length (Mentions m))%nat = true).
  { apply Nat.ltb_lt. destruct Hbot; cbn; lia. }
  assert (Hign : ignored m = false).
  { unfold ignored. destruct (Content m); [done|].
    apply Nat.ltb_lt in Hmentions.
    rewrite (proj2 (Nat.ltb_ge _ _)) by lia. apply andb_false_r. }
  rewrite Hign.
  destruct (State_Channel (discord_session bot) !! msg_ChannelID m) as [channel|]; [|done].
  rewrite Hguild, Hhelp, Hmentions, Hone.
  rewrite bool_decide_true by done. cbn [andb Nat.ltb Nat.leb].
  rewrite bot_mentioned_true by done.
  unfold handleBotControlMessages.
  rewrite lookup_ge_None_2 by lia. reflexivity.
Qed.

Lemma onMessageCreate_bare_mention_panics_witness :
  onMessageCreate sample_bot (always 0) (mention "<@bot>" "@Airhorn") w_idle
  = ([], w_idle, Panic index_out_of_range).
Proof.
  apply (onMessageCreate_bare_mention_panics sample_bot (always 0)
           (mention "<@bot>" "@Airhorn") w_idle guild_g1).
  - discriminate.
  - split; [reflexivity|]. by constructor.
  - reflexivity.
  - reflexivity.
  - reflexivity.
Defined.

(** *** The bomb *)

Lemma Repeat_trumpet count :
  0 <= count -> 9 * count <= GoInt.max_int ->
  Repeat ":trumpet:" count = Ret (repeat_string (Z.to_nat count) ":trumpet:").
Proof.
  intros H0 Hmax. unfold Repeat.
  destruct (Z.ltb_spec count 0); [lia|].
  change (Z.of_nat (String.length ":trumpet:")) with 9.
  destruct (Z.ltb_spec GoInt.max_int (9 * count)); [lia|done].
Qed.

(** [strconv.Atoi] on sample strings: a number, 0 where the syntax is
    wrong, the nearest bound of an [int] where the digits leave its
    range, also when a byte that is no digit follows them. *)
Lemma Atoi_examples :
  Atoi "42" = 42 /\ Atoi "-7" = -7 /\ Atoi "+7" = 7 /\
  Atoi EmptyString = 0 /\ Atoi "-" = 0 /\ Atoi "12a" = 0 /\ Atoi "1_000" = 0 /\
  Atoi "9223372036854775807" = GoInt.max_int /\
  Atoi "-9223372036854775808" = GoInt.min_int /\
  Atoi "9223372036854775808" = GoInt.max_int /\
  Atoi "-9223372036854775809" = GoInt.min_int /\
  Atoi "99999999999999999999" = GoInt.max_int /\
  Atoi "99999999999999999999x" = GoInt.max_int /\
  Atoi "-99999999999999999999x" = GoInt.min_int /\
  Atoi "18446744073709551615x" = 0 /\
  Atoi "9999999999999999999x" = 0.
Proof. vm_compute. repeat split. Qed.



(** X14: a bomb for a user who is in no voice channel of the guild, or
    for no user at all, panics once the message is sent: the request
    [createPlay] did not build is read all the same. *)
Theorem airhornBomb_outside_voice bot srcs cid guild user cs w :
  0 <= Atoi cs <= 100 ->
  match user with
  | Some user => getCurrentVoiceChannel (discord_session bot) user guild = None
  | None => True
  end ->
  exists tr,
    airhornBomb bot srcs cid guild user cs w
    = (ActSend cid (bomb_message (Atoi cs)) :: tr, w, Panic nil_dereference) /\
    Forall (fun a => exists msg, a = Act (EvLog msg)) tr.
Proof.
  intros Hcount Huser. unfold airhornBomb, hbind at 1, hlift.
  rewrite Repeat_trumpet
    by (unfold GoInt.max_int; lia).
  unfold hbind at 1, hemit at 1.
  destruct (Z.ltb_spec 100 (Atoi cs)); [lia|].
  destruct user as [user|].
  - unfold hbind, from_run, createPlay. rewrite Huser. cbn.
    eexists. split; [reflexivity|]. repeat constructor. by eexists.
  - eexists. split; [reflexivity|]. constructor.
Qed.

Lemma airhornBomb_outside_voice_witness :
  exists tr,
    airhornBomb sample_bot (always 0) "c1" guild_g1 (Some (mkUser "u9")) "3" w_idle
    = (ActSend "c1" (bomb_message 3) :: tr, w_idle, Panic nil_dereference) /\
    Forall (fun a => exists msg, a = Act (EvLog msg)) tr.
Proof.
  apply (airhornBomb_outside_voice sample_bot (always 0) "c1" guild_g1
           (Some (mkUser "u9")) "3" w_idle).
  - vm_compute. split; congruence.
  - reflexivity.
Defined.

Lemma Sound_Play_clip s vc w :
  Sound_Play (Some s) vc w = (clip_events (vc_id vc) s, w, Ret tt).
Proof.
  unfold Sound_Play, clip_events, bind, emit, emits. cbn. by rewrite ?app_nil_r.
Qed.

Lemma bomb_rounds_plays airhorn srcs vc n : forall i w,
  0 < soundRange airhorn -> soundRange airhorn <= cumWeight (Sounds airhorn) ->
  exists sounds,
    length sounds = n /\
    Forall (fun s => s ∈ Sounds airhorn) sounds /\
    bomb_rounds airhorn srcs vc i n w
    = (map Act (concat (map (clip_events (vc_id vc)) sounds)), w, Ret tt).
Proof.
  intros i w Hpos Hle. revert i.
  induction n as [|n IH]; intros i.
  - exists []. by repeat split.
  - destruct (Random_in_collection airhorn (srcs i) Hpos Hle) as (s & Hs & Hin).
    destruct (IH (S i)) as (sounds & Hlen & Hall & Hrun).
    exists (s :: sounds). split; [cbn; by rewrite Hlen|]. split; [by constructor|].
    cbn [bomb_rounds]. unfold hbind, hlift, from_run.
    rewrite Hs, Sound_Play_clip, Hrun. cbn [map concat]. by rewrite map_app.
Qed.

(** X15: a bomb of at most 100 horns for a user in a voice channel joins
    that channel, muted and deaf, on its own, whatever the queue of the
    guild holds; it plays as many clips of [AIRHORN] as horns were asked
    for and disconnects, and the queues are as before.  When the join
    fails it returns after the attempt. *)
Theorem airhornBomb_plays bot srcs cid guild user channel cs w :
  0 <= Atoi cs <= 100 ->
  getCurrentVoiceChannel (discord_session bot) user guild = Some channel ->
  ChainWith (the_AIRHORN bot) = None ->
  0 < soundRange (the_AIRHORN bot) ->
  soundRange (the_AIRHORN bot) <= cumWeight (Sounds (the_AIRHORN bot)) ->
  let join := ActJoin (Guild_ID guild) (Channel_ID channel) true true in
  (join_ok (discord_session bot) (joins w) (Guild_ID guild) (Channel_ID channel) = true ->
   exists sounds,
     length sounds = Z.to_nat (Atoi cs) /\
     Forall (fun s => s ∈ Sounds (the_AIRHORN bot)) sounds /\
     airhornBomb bot srcs cid guild (Some user) cs w
     = (ActSend cid (bomb_message (Atoi cs)) :: join ::
        map Act (concat (map (clip_events (joins w)) sounds)) ++
        [Act (EvDisconnect (joins w))],
        after_join w, Ret tt)) /\
  (join_ok (discord_session bot) (joins w) (Guild_ID guild) (Channel_ID channel) = false ->
   airhornBomb bot srcs cid guild (Some user) cs w
   = ([ActSend cid (bomb_message (Atoi cs)); join], after_join w, Ret tt)).
Proof.
  intros Hcount Hchannel Hchain Hpos Hle join.
  destruct (Random_in_collection (the_AIRHORN bot) (srcs 0%nat) Hpos Hle) as (s0 & Hs0 & _).
  split; intros Hjoin.
  all: unfold airhornBomb; unfold hbind at 1; unfold hlift at 1.
  all: rewrite Repeat_trumpet by (unfold GoInt.max_int; lia).
  all: unfold hbind at 1; unfold hemit at 1.
  all: destruct (Z.ltb_spec 100 (Atoi cs)); [lia|].
  all: unfold hbind at 1; unfold from_run.
  all: rewrite (createPlay_drawn _ _ _ _ _ _ _ _ _ Hchannel Hchain Hs0).
  all: cbn [map]; unfold hbind at 1; unfold ChannelVoiceJoin_deaf; cbn [GuildID ChannelID].
  all: rewrite Hjoin.
  - destruct (bomb_rounds_plays (the_AIRHORN bot) srcs
                {| vc_id := joins w; vc_GuildID := Guild_ID guild;
                   vc_ChannelID := Channel_ID channel |}
                (Z.to_nat (Atoi cs)) 2 {| queues := queues w; joins := S (joins w) |}
                Hpos Hle) as (sounds & Hlen & Hall & Hrun).
    exists sounds. split; [done|]. split; [done|].
    unfold hbind, hemit. rewrite Hrun. reflexivity.
  - reflexivity.
Qed.

Lemma airhornBomb_plays_witness :
  exists sounds,
    length sounds = 2%nat /\
    Forall (fun s => s ∈ Sounds AIRHORN) sounds /\
    airhornBomb sample_bot (always 0) "c1" guild_g1 (Some user_u1) "2" w_busy
    = (ActSend "c1" (bomb_message 2) :: ActJoin "g1" "c1" true true ::
       map Act (concat (map (clip_events 0) sounds)) ++ [Act (EvDisconnect 0)],
       after_join w_busy, Ret tt).
Proof.
  destruct (airhornBomb_plays sample_bot (always 0) "c1" guild_g1 user_u1
              (mkChannel "c1") "2" w_busy) as [Hplay _].
  - vm_compute. split; congruence.
  - reflexivity.
  - reflexivity.
  - reflexivity.
  - vm_compute. congruence.
  - apply Hplay. reflexivity.
Defined.

(** ** Usage statistics *)

(** X16: with a Redis client, a play is counted under [airhorn:total]
    and under one of the two families [airhorn:a] (a clip drawn at
    random) and [airhorn:f] (a clip asked for by name), never under
    both: the counter [airhorn:a:total], which
    [calculateAirhornsPerSecond] reads, is moved by the plays that
    were not forced, and by no other. *)
Theorem trackSoundStats_families r play s :
  Play_Sound play = Some s ->
  exists log,
    trackSoundStats (Some r) play = Ret (stats_pipeline play s, log) /\
    Incr "airhorn:total" ∈ stats_pipeline play s /\
    (Incr "airhorn:a:total" ∈ stats_pipeline play s <-> Forced play = false) /\
    (Incr "airhorn:f:total" ∈ stats_pipeline play s <-> Forced play = true).
Proof.
  intros Hs. unfold trackSoundStats. rewrite Hs. eexists. split; [reflexivity|].
  unfold stats_pipeline, stats_base.
  split; [apply list_elem_of_here|].
  destruct (Forced play); cbn.
  all: split; (split; [|done || (intros _; do 1 apply list_elem_of_further;
                                   apply list_elem_of_here)]).
  all: rewrite !elem_of_cons, elem_of_nil; intros Hin.
  all: repeat (destruct Hin as [Hin|Hin]; [discriminate|]); done.
Qed.

Lemma trackSoundStats_families_witness :
  exists log,
    trackSoundStats (Some (mkRedis (fun _ => None) (fun _ => EmptyString) (fun _ => true)))
                    (request "u1")
    = Ret (stats_pipeline (request "u1") clip_default, log) /\
    Incr "airhorn:total" ∈ stats_pipeline (request "u1") clip_default /\
    (Incr "airhorn:a:total" ∈ stats_pipeline (request "u1") clip_default
     <-> Forced (request "u1") = false) /\
    (Incr "airhorn:f:total" ∈ stats_pipeline (request "u1") clip_default
     <-> Forced (request "u1") = true).
Proof.
  apply (trackSoundStats_families
           (mkRedis (fun _ => None) (fun _ => EmptyString) (fun _ => true))
           (request "u1") clip_default).
  reflexivity.
Defined.

Lemma GoInt_wrap_add_l a b : GoInt.wrap (GoInt.wrap a + b) = GoInt.wrap (a + b).
Proof.
  unfold GoInt.wrap. f_equal.
  replace ((a + 2 ^ 63) mod 2 ^ 64 - 2 ^ 63 + b + 2 ^ 63)
    with ((a + 2 ^ 63) mod 2 ^ 64 + b) by lia.
  rewrite Z.add_mod_idemp_l by lia. f_equal. lia.
Qed.

Lemma utilSumRedisKeys_from r keys : forall acc,
  fold_left (fun total key => GoInt.add total (Atoi (redis_Get r key))) keys (GoInt.wrap acc)
  = GoInt.wrap (acc + sum_values r keys).
Proof.
  induction keys as [|key keys IH]; intros acc; cbn [fold_left].
  - unfold sum_values. cbn. by rewrite Z.add_0_r.
  - change (sum_values r (key :: keys))
      with (Atoi (redis_Get r key) + sum_values r keys).
    unfold GoInt.add at 2. rewrite GoInt_wrap_add_l, IH. f_equal. lia.
Qed.

Lemma sum_values_Permutation r keys keys' :
  keys ≡ₚ keys' -> sum_values r keys = sum_values r keys'.
Proof.
  induction 1 as [|k l l' _ IH|k1 k2 l|l1 l2 l3 _ IH1 _ IH2];
    unfold sum_values in *; cbn [foldr]; lia.
Qed.

(** X17: the total [utilSumRedisKeys] returns is the sum of the values
    of the keys as [strconv.Atoi] reads them, its error dropped (0 for
    a value that is not a number, the nearest bound of an [int] for a
    number beyond it), reduced to an [int]; it does not depend on the
    order in which the keys come. *)
Theorem utilSumRedisKeys_total r keys :
  utilSumRedisKeys r keys = GoInt.wrap (sum_values r keys) /\
  forall keys', keys ≡ₚ keys' -> utilSumRedisKeys r keys' = utilSumRedisKeys r keys.
Proof.
  assert (Hsum : forall l, utilSumRedisKeys r l = GoInt.wrap (sum_values r l)).
  { intros l. unfold utilSumRedisKeys.
    change 0 with (GoInt.wrap 0) at 1. by rewrite utilSumRedisKeys_from. }
  split; [apply Hsum|].
  intros keys' Hperm. rewrite !Hsum. f_equal. symmetry. by apply sum_values_Permutation.
Qed.

(** ** Guilds that appear *)

(** X18: a guild that appears is greeted at most once, in the channel
    that carries the identifier of the guild, and only when the guild
    is flagged unavailable. *)
Theorem onGuildCreate_greets event :
  onGuildCreate event
  = if gc_Unavailable event
       && existsb (fun channel => bool_decide (Channel_ID channel = gc_ID event))
                  (gc_Channels event)
    then [ActSend (gc_ID event) greeting]
    else [].
Proof.
  unfold onGuildCreate. destruct (gc_Unavailable event); [|done]. cbn.
  induction (gc_Channels event) as [|channel channels IH]; [done|]. cbn.
  destruct (decide (Channel_ID channel = gc_ID event)) as [Heq|Hne].
  - rewrite bool_decide_true by done. cbn. by rewrite Heq.
  - rewrite bool_decide_false by done. cbn. exact IH.
Qed.
